(* ===== verification/_CoqProject ===== *)
-Q . S2P
Prelude.v
Trie.v
TrieSpec.v
Experiment.v
Router.v
