(* ===== verification/Prelude.v ===== *)
(** * Gee route trie: a verification development

    The program is the routing core of the Gee web framework (repository
    pojiang20/Gee). src/ holds two parts.
    - src/gee/trie.go, the route trie. A [node] has the fields
      [pattern], [part], [children] and [isWild].
      - [matchChild] returns the first child that is a candidate for a
        path segment: its segment is equal, or it is wild. [matchChildren]
        returns all of them.
      - [insert] registers a route, given as the list of its segments.
        It descends into the first candidate at each level and creates
        missing nodes.
      - [search] resolves a path given as a list of segments. It does a
        depth-first search with backtracking over all candidates, and
        stops where the path ends or at a catch-all ([*...]) node.
    - src/experiment/mytrie.go, an abandoned prototype: a global
      [rootNode] whose children sit in a Go map, with [insert] and
      [match] over [strings.Split(path, "/")]. It shares no code with
      the trie.
    The Router that owns one trie per HTTP method and splits request
    paths is not in src/. The spec (sections 2, 5 and 6) describes it as
    the trie's caller, and [Router] models it from those words.

    ** Files (in dependency order)
    - [Prelude] (this file). It holds:
      - [outcome S A], the result of a Go call that may panic. It is
        either [Returned s a] or [Panicked s], and [s] is the state the
        call leaves in both cases, since a panic does not undo earlier
        mutations.
      - the state-and-panic monad [M] with its notation (scope
        [gee_scope]), and [map_state], which writes a callee's state back
        into its caller (a method called through a pointer);
      - [first_some], Go's "for ... { if r != nil { return r } }";
      - shared lemmas on lists and strings, and the hint databases [gee]
        and [gee_rw].
    - [Trie]: Module [Trie], the model of trie.go and its operational
      theorems. [node] is an inductive with the struct's four fields. Go's
      [*node] pointers are the tree's own edges: no node is shared, so a
      node value stands for its subtree. The pointer [matchChild] returns
      is the child's index with the child, so that [insert] writes the
      child's final state back into that slot. [insert_go] and
      [search_go] are the recursive methods, run with fuel. [insert] and
      [search] supply the fuel [S (length parts - height)]. That is
      enough, because each recursive call increases [height] and the
      calls stop at [length parts]. C13 and C14 prove that any larger
      fuel gives the same result, so the fuel-exhaustion branches
      ([Panicked n], [None]) are never what a wrapper returns.
    - [TrieSpec]: Module [TrieSpec], the trie's contract. [matches] is
      the abstract, nondeterministic matching relation, [wf_trie] the
      tree invariant, [extends] the append-only order. It proves that
      the trie keeps its contract: refinement, invariant, append-only
      growth, preserved routes, and the insert-then-search round trip.
    - [Experiment]: Module [Experiment], the prototype. The Go heap is
      explicit: a [gmap] from locations to nodes. A nil pointer is
      [None], and so is a nil map in a node. [strings.Split] is [split].
      [step] is the prototype as a state machine: one call of [insert]
      or [match'], its panic recovered.
    - [Router]: Module [Router], the Router of the spec. The class
      [RouteTrie] is what a router calls: an empty trie, [insert] and
      [search]. [RouteTrieLaws] is what a trie promises, with its own
      routing predicate and insert preconditions. The instances
      [trie_route_trie] and [trie_route_laws] are trie.go's [node],
      whose laws [TrieSpec] discharges. The router is a [gmap] from
      method to trie. [addRoute] splits the pattern with [split_path]
      ([strings.Split], then the leading empty piece dropped) and
      inserts it; [getRoute] searches and builds the parameters with
      [params_of]. [register] is the registration phase: a list of
      (method, pattern) registered in order, any pattern, panics
      recovered. The router lemmas use only the laws; the claims state
      them at trie.go's [node].

    ** Theorem groups (claim ids in the doc comments)
    - Refinement: [search] is sound (C1) and complete (C2) for
      [matches]. Completeness is what the backtracking buys.
    - Round trip and insert: an inserted route is found again (C3).
      [insert] is idempotent (C4). Its pattern argument is ignored (C5).
      It cannot panic without an empty segment (C6); on a childless node
      a panic leaves exactly the chain of nodes built before it (C7).
    - Invariants: well-formedness (C8). An [insert] that stores a
      non-empty pattern only appends (C9) and keeps routable paths
      routable, panicking or not (C10). The condition is needed:
      [insert] sets the pattern of the node its route ends at, so an
      empty last segment unregisters that node (C33).
    - Behaviour the spec discusses: a catch-all needs one more segment
      (C11); a wild child captures a later literal route, for any
      literal parent segment and any names (C12).
    - Termination: the fuel bounds (C13, C14).
    - Prototype: [insert] always panics (C15), [match'] always panics
      (C16), and no reachable state routes anything (C17).
    - More trie behaviour: a catch-all captures the routes inserted
      through it (C18). [search] returns the first element of the
      exhaustive depth-first enumeration [all_matches] (C19).
    - Router: [getRoute] answers exactly the routable requests (C20); a
      registered route is served after any later registrations that
      store non-empty patterns (C21, liveness of the registration
      phase), and so is every answered request (C22); a later [/]
      erases a registered [/:x] (C34).
    - Router over trie.go: a parameter is bound to the wrong segment
      (C23), a catch-all parameter to the whole path (C29), and the
      path [/] matches [/:x] (C24).
    - Ordering: a literal registered before a parameter keeps both
      routes (C30), the reverse of the capture in C12.
    - Failure atomicity: an [insert] that panics leaves its partial nodes
      unregistered, so [search] answers exactly what it answered before
      (C31), and a panicking [addRoute] changes no answer of the router
      (C32).
    - Spec sections 7 and 8: a path longer than every route finds
      nothing (C25); an inserted route answers every instance of its
      [:name] segments (C26); if every route has [K] segments,
      inserting a route of [K] segments keeps it so (C27), and a path of
      another length finds nothing (C28).

    ** Findings
    - trie.go:49 passes [part] where [pattern] is meant. So the node
      where a route ends holds its last segment, not the full pattern
      the spec promises (C5, C3's [stored_pattern]).
    - With it, a route whose last segment is empty stores the empty
      pattern and unregisters the node it ends at: [/] registered after
      [/:x] leaves no route for the method (C33, C34).
    - [/a/*rest] does not match [/a], contrary to spec section 8 (C11).
    - After [/p/:id] and [/p/new], the [:id] node holds the pattern
      "new" (C12).
    - An empty segment panics at trie.go:45 after the earlier nodes were
      appended (C7).
    - The prototype writes into a nil map (mytrie.go:26) and
      dereferences a nil pointer (mytrie.go:41), so it never works
      (C15, C16, C17).
    - A route inserted after [/*f] sits below the catch-all and is never
      returned (C18).
    - Through the router, trie.go:49 binds [x] of [/a/:x] to [a] instead
      of the request's segment (C23), and [f] of [/a/*f] to the whole
      path (C29); the path [/] matches [/:x], which spec 4.2 says must
      not match (C24).

    ** Fuel and bounds
    [insert] and [search] run with fuel [S (length parts - height)]
    (C13, C14). [all_matches] and the Router need no fuel: the first
    recurses on the tree, the second calls the wrappers.

    ** Not modelled
    HTTP dispatch, handlers, middleware and contexts are not in src/
    and are out of the spec's scope, so the router holds tries and no
    handlers. Concurrent readers are not modelled: the trie is
    read-only once built (spec 5), and a functional model has no shared
    mutable state to race on. The Router's split follows the spec
    (drop a leading empty piece), not a particular upstream
    [parsePattern], since that code is not in the repository. *)

From stdpp Require Import base list strings.

Declare Scope gee_scope.
Delimit Scope gee_scope with gee.
Open Scope gee_scope.

Create HintDb gee.
Create Rewrite HintDb gee_rw.

(** ** Outcome of a call that may panic *)

(** [Returned s a]: the call returned [a] and left the state [s].
    [Panicked s]: the call panicked; [s] is the state at the panic. *)
Inductive outcome (S A : Type) : Type :=
| Returned (s : S) (a : A)
| Panicked (s : S).
Arguments Returned {S A} s a.
Arguments Panicked {S A} s.

Definition state_of {S A} (o : outcome S A) : S :=
  match o with Returned s _ => s | Panicked s => s end.

Definition returned {S A} (o : outcome S A) : bool :=
  match o with Returned _ _ => true | Panicked _ => false end.

(** Writing a callee's final state back into the caller's state, on both
    exits: what a method called through a pointer does to its caller. *)
Definition map_state {S T A} (f : S -> T) (o : outcome S A) : outcome T A :=
  match o with
  | Returned s a => Returned (f s) a
  | Panicked s => Panicked (f s)
  end.

(** ** The state-and-panic monad *)

Definition M (S A : Type) : Type := S -> outcome S A.

Definition ret {S A} (a : A) : M S A := fun s => Returned s a.
Definition bind {S A B} (m : M S A) (k : A -> M S B) : M S B :=
  fun s => match m s with
           | Returned s' a => k a s'
           | Panicked s' => Panicked s'
           end.
Definition get {S} : M S S := fun s => Returned s s.
Definition modify {S} (f : S -> S) : M S unit := fun s => Returned (f s) tt.
Definition panic {S A} : M S A := fun s => Panicked s.

Notation "x <- m ;; k" := (bind m (fun x => k))
  (at level 100, m at next level, right associativity) : gee_scope.
Notation "m ;;; k" := (bind m (fun _ => k))
  (at level 100, right associativity) : gee_scope.

(** ** Early-exit loops *)

(** [for _, x := range l { if r := f(x); r != nil { return r } }; return nil] *)
Fixpoint first_some {A B} (f : A -> option B) (l : list A) : option B :=
  match l with
  | [] => None
  | x :: l' => match f x with Some b => Some b | None => first_some f l' end
  end.

(** ** Generic lemmas *)

Section outcome_lemmas.
Context {S T A : Type}.

Lemma state_of_map_state (f : S -> T) (o : outcome S A) :
  state_of (map_state f o) = f (state_of o).
Proof. by destruct o. Qed.

Lemma returned_map_state (f : S -> T) (o : outcome S A) :
  returned (map_state f o) = returned o.
Proof. by destruct o. Qed.

Lemma map_state_Returned (f : S -> T) (o : outcome S A) s a :
  map_state f o = Returned s a -> exists s0, o = Returned s0 a /\ s = f s0.
Proof. destruct o; simpl; intros; simplify_eq; eauto. Qed.

Lemma map_state_Panicked (f : S -> T) (o : outcome S A) s :
  map_state f o = Panicked s -> exists s0, o = Panicked s0 /\ s = f s0.
Proof. destruct o; simpl; intros; simplify_eq; eauto. Qed.
End outcome_lemmas.

Section first_some_lemmas.
Context {A B : Type}.
Implicit Types (f g : A -> option B) (l : list A).

Lemma first_some_Some f l b :
  first_some f l = Some b -> exists x, x ∈ l /\ f x = Some b.
Proof.
  induction l as [|x l IH]; simpl; [done|].
  destruct (f x) eqn:E; intros H; simplify_eq.
  - exists x. split; [left|done].
  - destruct (IH H) as (y & Hy & Hf). exists y. split; [by right|done].
Qed.

Lemma first_some_None f l :
  first_some f l = None <-> Forall (fun x => f x = None) l.
Proof.
  induction l as [|x l IH]; simpl; [split; auto|].
  rewrite Forall_cons. destruct (f x); naive_solver.
Qed.

Lemma first_some_elem_of f l x :
  x ∈ l -> is_Some (f x) -> is_Some (first_some f l).
Proof.
  intros Hx [b Hb]. destruct (first_some f l) eqn:E; [done|].
  apply first_some_None in E. rewrite Forall_forall in E.
  rewrite (E x Hx) in Hb. done.
Qed.

Lemma first_some_ext f g l :
  (forall x, x ∈ l -> f x = g x) -> first_some f l = first_some g l.
Proof.
  induction l as [|x l IH]; simpl; intros H; [done|].
  rewrite (H x); [|by left]. destruct (g x); [done|].
  apply IH. intros y Hy. apply H. by right.
Qed.

Lemma first_some_cons_Some f x l b :
  f x = Some b -> first_some f (x :: l) = Some b.
Proof. simpl. by intros ->. Qed.

(** The early-exit loop returns the first result of the exhaustive one:
    if each [f x] is the head of the list [g x] enumerates, the loop
    over [l] returns the head of all those lists joined in order. *)
Lemma first_some_head_mjoin f (g : A -> list B) l :
  (forall x, x ∈ l -> f x = head (g x)) ->
  first_some f l = head (mjoin (g <$> l)).
Proof.
  induction l as [|x l IH]; simpl; intros H; [done|].
  rewrite (H x) by by left. destruct (g x) as [|y ys]; simpl; [|done].
  apply IH. intros y Hy. apply H. by right.
Qed.
End first_some_lemmas.

(** The first element [list_find] returns is the head of [filter]. *)
Lemma list_find_head_filter {A} (P : A -> Prop) `{!forall x, Decision (P x)}
    (l : list A) :
  snd <$> list_find P l = head (filter P l).
Proof.
  induction l as [|x l IH]; [done|]. simpl. rewrite filter_cons.
  case_decide; [done|]. rewrite <- IH. by destruct (list_find P l) as [[]|].
Qed.

Lemma forallb_Forall {A} (f : A -> bool) (l : list A) :
  forallb f l = true <-> Forall (fun x => f x = true) l.
Proof.
  induction l as [|x l IH]; simpl; [split; auto|].
  rewrite andb_true_iff, Forall_cons. naive_solver.
Qed.

(** Updating one slot of the right-hand list of a [Forall2]. *)
Lemma Forall2_insert_r {A B} (R : A -> B -> Prop) (l : list A) (k : list B) i y :
  Forall2 R l k -> (forall x, l !! i = Some x -> R x y) ->
  Forall2 R l (<[i := y]> k).
Proof.
  intros HR. revert i. induction HR as [|x z l k Hxz HR IH]; intros [|i] Hy;
    simpl; constructor; auto.
Qed.

(** ** Strings *)

Lemma string_app_nil_r (s : string) : (s +:+ "")%string = s.
Proof. induction s as [|c s IH]; [done|]. exact (f_equal (String c) IH). Qed.

Lemma string_app_assoc (s1 s2 s3 : string) :
  (s1 +:+ (s2 +:+ s3))%string = ((s1 +:+ s2) +:+ s3)%string.
Proof. induction s1 as [|c s1 IH]; [done|]. exact (f_equal (String c) IH). Qed.

#[export] Hint Rewrite string_app_nil_r : gee_rw.

#[export] Hint Resolve first_some_cons_Some : gee.
#[export] Hint Rewrite @state_of_map_state @returned_map_state : gee_rw.

(** Case analysis on the boolean string and number tests of the code. *)
Ltac case_tests :=
  repeat match goal with
  | |- context [String.eqb ?a ?b] => destruct (String.eqb_spec a b); subst
  | |- context [Nat.eqb ?a ?b] => destruct (Nat.eqb_spec a b); subst
  | H : context [String.eqb ?a ?b] |- _ => destruct (String.eqb_spec a b); subst
  | H : context [Nat.eqb ?a ?b] |- _ => destruct (Nat.eqb_spec a b); subst
  end.
