(* ===== verification/Trie.v ===== *)
(** * The route trie of src/gee/trie.go

    Module [Trie] translates the file's type and four methods.
    - [node] is the struct.
    - [matchChild] and [matchChildren] are the candidate lookups.
    - [insert_go] and [insert] are method [insert] of [*node]. The
      receiver is the state of the [M] monad, and a panic is [Panicked].
    - [search_go] and [search] are method [search] of [*node].
    The file proves:
    - the fuel bounds (C13, C14);
    - the unfolding equations of both methods, and the functional
      induction principle [insert_ind] that every proof about [insert]
      goes through;
    - the operational theorems: [insert] is
      idempotent (C4), it ignores its pattern argument (C5), when it
      panics and what state a panic leaves (C6, C7), and the catch-all
      and wild-segment behaviour (C11, C12, C18), and how the order of
      registration decides between a literal and a parameter (C30).
    [node_eq_decision] decides equality of tries, child by child. *)

From stdpp Require Import base list strings.
From Stdlib Require Import Ascii.
From S2P Require Import Prelude.


Module Trie.

(** [type node struct { pattern string; part string; children []*node;
    isWild bool }] (trie.go:5-10). *)
Inductive node : Type := mkNode {
  pattern : string;
  part : string;
  children : list node;
  isWild : bool
}.

(** The root a router allocates with [&node{}]: Go's zero value. *)
Definition root : node := mkNode "" "" [] false.

Definition set_pattern (pat : string) (n : node) : node :=
  mkNode pat (part n) (children n) (isWild n).

Definition set_children (cs : list node) (n : node) : node :=
  mkNode (pattern n) (part n) cs (isWild n).

(** The candidate test shared by both lookups (trie.go:14 and 24):
    [child.part == part || child.isWild]. *)
Definition is_candidate (p : string) (child : node) : bool :=
  String.eqb (part child) p || isWild child.

(** [matchChild] (trie.go:12-19): the first candidate child. The Go
    pointer into [n.children] is the child's index together with the
    child. *)
Definition matchChild (n : node) (p : string) : option (nat * node) :=
  list_find (fun child => is_candidate p child = true) (children n).

(** [matchChildren] (trie.go:21-29): every candidate child, in order. *)
Definition matchChildren (n : node) (p : string) : list node :=
  filter (fun child => is_candidate p child = true) (children n).

(** [part[0] == ':' || part[0] == '*'] (trie.go:45). Indexing an empty
    string panics in Go: [None]. *)
Definition wild_of (p : string) : option bool :=
  match p with
  | EmptyString => None
  | String c _ => Some (Ascii.eqb c ":"%char || Ascii.eqb c "*"%char)
  end.

(** [strings.HasPrefix] of [n.part] and the star (trie.go:53). *)
Definition is_catchall (n : node) : bool := String.prefix "*" (part n).

(** method [insert] of [*node] (trie.go:31-50). The receiver [n] is the state.
    - If [len(parts) == height], the node's pattern is set.
    - Otherwise [parts[height]] is read, and panics when out of range.
    - Then the first candidate child is taken. If there is none, a new
      child is built and appended, which panics on an empty segment
      before anything is appended.
    - The call recurses with [part] as the pattern, as line 49 does, and
      the child's final state is written back into its slot on both
      exits.
    The [O] case is never reached with the fuel [insert] supplies
    ([insert_go_fuel]). *)
Fixpoint insert_go (fuel : nat) (pattern : string) (parts : list string)
    (height : nat) : M node unit :=
  fun n =>
  match fuel with
  | O => Panicked n
  | S fuel =>
    if Nat.eqb (length parts) height then Returned (set_pattern pattern n) tt
    else
      match parts !! height with
      | None => Panicked n
      | Some p =>
        match matchChild n p with
        | Some (i, child) =>
            map_state (fun c => set_children (<[i := c]> (children n)) n)
              (insert_go fuel p parts (S height) child)
        | None =>
            match wild_of p with
            | None => Panicked n
            | Some w =>
                map_state (fun c => set_children (children n ++ [c]) n)
                  (insert_go fuel p parts (S height) (mkNode "" p [] w))
            end
        end
      end
  end.

Definition insert (pattern : string) (parts : list string) (height : nat)
    : M node unit :=
  insert_go (S (length parts - height)) pattern parts height.

(** method [search] of [*node] (trie.go:52-70). The node is returned when the
    path is used up or the node is a catch-all, provided its pattern is
    non-empty. Otherwise the candidates are tried in order and the first
    non-nil result is returned. [parts[height]] is in range whenever
    [height <= len(parts)], which holds for the root call (height 0) and
    for every recursive call; the [None] branch stands for the
    unreachable out-of-range access. *)
Fixpoint search_go (fuel : nat) (n : node) (parts : list string)
    (height : nat) : option node :=
  match fuel with
  | O => None
  | S fuel =>
    if Nat.eqb (length parts) height || is_catchall n then
      if String.eqb (pattern n) "" then None else Some n
    else
      match parts !! height with
      | None => None
      | Some p =>
          first_some (fun child => search_go fuel child parts (S height))
            (matchChildren n p)
      end
  end.

Definition search (n : node) (parts : list string) (height : nat)
    : option node :=
  search_go (S (length parts - height)) n parts height.

(** The nodes [insert] builds below a node with no candidate child:
    one fresh, unregistered node per segment, each the only child of
    the one before, its flag taken from the segment's first byte
    (trie.go:45-46). *)
Fixpoint fresh_chain (ps : list string) : list node :=
  match ps with
  | [] => []
  | p :: ps' => [mkNode "" p (fresh_chain ps') (default false (wild_of p))]
  end.

(** A trie with two routes sharing the prefix [p]: [/p/x/y], then
    [/p/:id/z]. The node for [p] has the literal child [x] first and the
    wild child [:id] second. So the path [/p/x/z] is routed only by
    backtracking from [x] to [:id]. *)
Definition demo_trie : node :=
  state_of (insert "/p/:id/z" ["p"; ":id"; "z"] 0
    (state_of (insert "/p/x/y" ["p"; "x"; "y"] 0 root))).

(** Structural equality of nodes, decided field by field and child by
    child. The [decide] and [bool_decide] of the witnesses use it. *)
Fixpoint node_eq_dec (n1 n2 : node) {struct n1} : Decision (n1 = n2).
Proof.
  refine (match n1, n2 with
    | mkNode p1 t1 cs1 w1, mkNode p2 t2 cs2 w2 =>
        cast_if_and4 (decide (p1 = p2)) (decide (t1 = t2))
          (@list_eq_dec _ node_eq_dec cs1 cs2) (decide (w1 = w2))
    end); abstract congruence.
Defined.

#[export] Instance node_eq_decision : EqDecision node := node_eq_dec.

(** ** Induction over the nested tree *)

Section node_ind_nested.
Variable P : node -> Prop.
Hypothesis Hnode : forall pat pt cs w, Forall P cs -> P (mkNode pat pt cs w).

Fixpoint node_ind_nested (n : node) : P n :=
  match n with
  | mkNode pat pt cs w =>
      Hnode pat pt cs w
        ((fix go (l : list node) : Forall P l :=
            match l with
            | [] => Forall_nil_2 _
            | c :: l' => Forall_cons_2 _ c l' (node_ind_nested c) (go l')
            end) cs)
  end.
End node_ind_nested.

(** ** Elementary facts *)

Lemma lookup_Some_lt {A} (l : list A) i x : l !! i = Some x -> i < length l.
Proof. intros H. by apply lookup_lt_Some in H. Qed.

Lemma matchChild_Some n p i c :
  matchChild n p = Some (i, c) ->
  children n !! i = Some c /\ is_candidate p c = true /\
  forall j d, children n !! j = Some d -> j < i -> is_candidate p d = false.
Proof.
  unfold matchChild. rewrite list_find_Some.
  intros (Hi & Hc & Hfirst). split; [done|]. split; [done|].
  intros j d Hj Hlt. apply not_true_is_false. eauto.
Qed.

Lemma matchChild_None n p :
  matchChild n p = None -> Forall (fun c => is_candidate p c = false) (children n).
Proof.
  unfold matchChild. rewrite list_find_None. intros H.
  eapply Forall_impl; [exact H|]. intros c. apply not_true_is_false.
Qed.

Lemma elem_of_matchChildren n p c :
  c ∈ matchChildren n p <-> c ∈ children n /\ is_candidate p c = true.
Proof. unfold matchChildren. rewrite list_elem_of_filter. tauto. Qed.

#[export] Hint Resolve lookup_Some_lt : gee.

(** ** Fuel *)

Lemma insert_go_fuel_stable f1 f2 pat parts height n :
  length parts - height < f1 -> length parts - height < f2 ->
  insert_go f1 pat parts height n = insert_go f2 pat parts height n.
Proof.
  revert f2 pat height n.
  induction f1 as [|f1 IH]; intros [|f2] pat height n H1 H2; try lia.
  simpl. destruct (Nat.eqb_spec (length parts) height); [done|].
  destruct (parts !! height) as [p|] eqn:Hp; [|done].
  pose proof (lookup_Some_lt _ _ _ Hp).
  destruct (matchChild n p) as [[i c]|]; [|destruct (wild_of p)];
    try done; f_equal; apply IH; lia.
Qed.

Lemma search_go_fuel_stable f1 f2 n parts height :
  length parts - height < f1 -> length parts - height < f2 ->
  search_go f1 n parts height = search_go f2 n parts height.
Proof.
  revert f2 n height.
  induction f1 as [|f1 IH]; intros [|f2] n height H1 H2; try lia.
  simpl. destruct (Nat.eqb_spec (length parts) height); simpl; [done|].
  destruct (is_catchall n); [done|].
  destruct (parts !! height) as [p|] eqn:Hp; [|done].
  pose proof (lookup_Some_lt _ _ _ Hp).
  apply first_some_ext. intros c _. apply IH; lia.
Qed.

(** ** Unfolding equations of [insert] and [search] *)

Lemma insert_done pat parts n :
  insert pat parts (length parts) n = Returned (set_pattern pat n) tt.
Proof. unfold insert. simpl. by rewrite Nat.eqb_refl. Qed.

Lemma insert_found pat parts height n p i c :
  parts !! height = Some p -> matchChild n p = Some (i, c) ->
  insert pat parts height n =
  map_state (fun c' => set_children (<[i := c']> (children n)) n)
    (insert p parts (S height) c).
Proof.
  intros Hp Hm. pose proof (lookup_Some_lt _ _ _ Hp).
  unfold insert at 1. simpl.
  destruct (Nat.eqb_spec (length parts) height); [lia|].
  rewrite Hp, Hm. unfold insert. f_equal.
  apply insert_go_fuel_stable; lia.
Qed.

Lemma insert_new pat parts height n p w :
  parts !! height = Some p -> matchChild n p = None -> wild_of p = Some w ->
  insert pat parts height n =
  map_state (fun c' => set_children (children n ++ [c']) n)
    (insert p parts (S height) (mkNode "" p [] w)).
Proof.
  intros Hp Hm Hw. pose proof (lookup_Some_lt _ _ _ Hp).
  unfold insert at 1. simpl.
  destruct (Nat.eqb_spec (length parts) height); [lia|].
  rewrite Hp, Hm, Hw. unfold insert. f_equal.
  apply insert_go_fuel_stable; lia.
Qed.

Lemma insert_empty_segment pat parts height n :
  parts !! height = Some "" -> matchChild n "" = None ->
  insert pat parts height n = Panicked n.
Proof.
  intros Hp Hm. pose proof (lookup_Some_lt _ _ _ Hp).
  unfold insert. simpl.
  destruct (Nat.eqb_spec (length parts) height); [lia|].
  by rewrite Hp, Hm.
Qed.

Lemma search_stop n parts height :
  height = length parts \/ is_catchall n = true ->
  search n parts height = if String.eqb (pattern n) "" then None else Some n.
Proof.
  intros H. unfold search. simpl.
  destruct H as [-> | ->]; [by rewrite Nat.eqb_refl|by rewrite orb_true_r].
Qed.

Lemma search_step n parts height p :
  is_catchall n = false -> parts !! height = Some p ->
  search n parts height =
  first_some (fun child => search child parts (S height)) (matchChildren n p).
Proof.
  intros Hc Hp. pose proof (lookup_Some_lt _ _ _ Hp).
  unfold search at 1. simpl.
  destruct (Nat.eqb_spec (length parts) height); [lia|]. rewrite Hc, Hp. simpl.
  apply first_some_ext. intros c _. apply search_go_fuel_stable; lia.
Qed.

Lemma matchChildren_first n p i c :
  matchChild n p = Some (i, c) -> exists rest, matchChildren n p = c :: rest.
Proof.
  intros Hm. pose proof (list_find_head_filter (fun child => is_candidate p child = true)
    (children n)) as Hh. fold (matchChild n p) (matchChildren n p) in Hh. rewrite Hm in Hh.
  destruct (matchChildren n p) as [|d rest]; simplify_eq/=; eauto.
Qed.

(** Replacing the child [matchChild] found by a child that is still a
    candidate leaves the answer at the same index. *)
Lemma matchChild_update n m p i c c' :
  matchChild n p = Some (i, c) -> is_candidate p c' = true ->
  matchChild (set_children (<[i := c']> (children n)) m) p = Some (i, c').
Proof.
  intros Hm Hc'. apply matchChild_Some in Hm as (Hi & Hc & Hfirst).
  unfold matchChild, set_children. simpl. apply list_find_Some.
  split_and!; [apply list_lookup_insert_eq; eauto using lookup_Some_lt|done|].
  intros j d Hj Hlt. rewrite list_lookup_insert_ne in Hj by lia.
  rewrite (Hfirst j d Hj Hlt). discriminate.
Qed.

(** With no candidate among the children, an appended candidate is the
    answer. *)
Lemma matchChild_append n m p c' :
  matchChild n p = None -> is_candidate p c' = true ->
  matchChild (set_children (children n ++ [c']) m) p = Some (length (children n), c').
Proof.
  intros Hm Hc'. apply matchChild_None in Hm. rewrite Forall_lookup in Hm.
  unfold matchChild, set_children. simpl. apply list_find_Some.
  split_and!; [by rewrite lookup_app_r, Nat.sub_diag by lia|done|].
  intros j d Hj Hlt. rewrite lookup_app_l in Hj by done.
  rewrite (Hm j d Hj). discriminate.
Qed.

(** Below a node whose children are all wild, every child is a
    candidate for every segment. *)
Lemma matchChildren_all_wild n p :
  Forall (fun c => isWild c = true) (children n) -> matchChildren n p = children n.
Proof.
  unfold matchChildren. induction 1 as [|c cs Hc _ IH]; [done|].
  rewrite filter_cons, decide_True, IH; [done|]. unfold is_candidate.
  by rewrite Hc, orb_true_r.
Qed.

(** ** Termination *)

(** C13: insert terminates within the fuel its wrapper supplies. The
    recursion depth of [insert_go] is at most [length parts - height]:
    any fuel above that gives the result of [insert]. *)
Theorem insert_fuel_enough fuel pat parts height n :
  length parts - height < fuel ->
  insert_go fuel pat parts height n = insert pat parts height n.
Proof. intros H. apply insert_go_fuel_stable; lia. Qed.

(** C14: search terminates within the fuel its wrapper supplies. The
    same bound holds for [search_go]. *)
Theorem search_fuel_enough fuel n parts height :
  length parts - height < fuel ->
  search_go fuel n parts height = search n parts height.
Proof. intros H. apply search_go_fuel_stable; lia. Qed.

Lemma insert_fuel_enough_witness :
  insert_go 7 "/p/:id" ["p"; ":id"] 0 root = insert "/p/:id" ["p"; ":id"] 0 root.
Proof. apply insert_fuel_enough. simpl. lia. Defined.

Lemma search_fuel_enough_witness :
  search_go 9 root ["p"; "1"] 0 = search root ["p"; "1"] 0.
Proof. apply search_fuel_enough. simpl. lia. Defined.


(** ** Functional induction for [insert] and its consequences *)

Section insert_induction.
Variable parts : list string.
Variable Q : string -> nat -> node -> outcome node unit -> Prop.
Hypothesis Hdone : forall pat n,
  Q pat (length parts) n (Returned (set_pattern pat n) tt).
Hypothesis Hfound : forall pat h n p i c,
  parts !! h = Some p -> matchChild n p = Some (i, c) ->
  Q p (S h) c (insert p parts (S h) c) ->
  Q pat h n (map_state (fun c' => set_children (<[i := c']> (children n)) n)
               (insert p parts (S h) c)).
Hypothesis Hnew : forall pat h n p w,
  parts !! h = Some p -> matchChild n p = None -> wild_of p = Some w ->
  Q p (S h) (mkNode "" p [] w) (insert p parts (S h) (mkNode "" p [] w)) ->
  Q pat h n (map_state (fun c' => set_children (children n ++ [c']) n)
               (insert p parts (S h) (mkNode "" p [] w))).
Hypothesis Hpanic : forall pat h n,
  parts !! h = Some "" -> matchChild n "" = None -> Q pat h n (Panicked n).

Lemma insert_ind h pat n :
  h <= length parts -> Q pat h n (insert pat parts h n).
Proof.
  remember (length parts - h) as k eqn:Hk.
  revert h pat n Hk. induction k as [|k IH]; intros h pat n Hk Hle.
  - assert (h = length parts) as -> by lia. rewrite insert_done. apply Hdone.
  - destruct (parts !! h) as [p|] eqn:Hp;
      [|apply lookup_ge_None in Hp; lia].
    destruct (matchChild n p) as [[i c]|] eqn:Hm.
    + rewrite (insert_found _ _ _ _ _ _ _ Hp Hm). apply Hfound; auto.
      apply IH; lia.
    + destruct (wild_of p) as [w|] eqn:Hw.
      * rewrite (insert_new _ _ _ _ _ _ Hp Hm Hw). apply Hnew; auto.
        apply IH; lia.
      * destruct p; [|discriminate].
        rewrite insert_empty_segment by done. by apply Hpanic.
Qed.
End insert_induction.

(** ** Facts about [insert] shared by the theorems *)

Lemma set_children_part cs n : part (set_children cs n) = part n.
Proof. done. Qed.
Lemma set_children_isWild cs n : isWild (set_children cs n) = isWild n.
Proof. done. Qed.
Lemma set_children_children cs n : children (set_children cs n) = cs.
Proof. done. Qed.
Lemma set_children_pattern cs n : pattern (set_children cs n) = pattern n.
Proof. done. Qed.
#[export] Hint Rewrite set_children_part set_children_isWild
  set_children_children set_children_pattern : gee_rw.

(** [insert] changes neither the segment nor the flag of its receiver. *)
Lemma insert_receiver pat parts h n :
  h <= length parts ->
  part (state_of (insert pat parts h n)) = part n /\
  isWild (state_of (insert pat parts h n)) = isWild n.
Proof.
  intros Hle. pattern pat, h, n, (insert pat parts h n).
  apply insert_ind; try done; intros;
    rewrite state_of_map_state; autorewrite with gee_rw; done.
Qed.

(** Above the route's last segment, [insert] leaves the receiver's
    pattern alone. *)
Lemma insert_keeps_pattern pat parts h n :
  h < length parts -> pattern (state_of (insert pat parts h n)) = pattern n.
Proof.
  intros Hlt. assert (h <= length parts) as Hle by lia. revert Hlt.
  pattern pat, h, n, (insert pat parts h n).
  apply insert_ind; [lia| | | |done]; intros;
    rewrite ?state_of_map_state; autorewrite with gee_rw; done.
Qed.

Lemma is_candidate_same p c c' :
  part c' = part c -> isWild c' = isWild c ->
  is_candidate p c' = is_candidate p c.
Proof. unfold is_candidate. by intros -> ->. Qed.

Lemma new_child_candidate pat parts h p w :
  h <= length parts ->
  is_candidate p (state_of (insert pat parts h (mkNode "" p [] w))) = true.
Proof.
  intros Hle. unfold is_candidate.
  destruct (insert_receiver pat parts h (mkNode "" p [] w) Hle) as [-> _].
  simpl. by rewrite String.eqb_refl.
Qed.


(** A literal segment is not a catch-all. *)
Lemma not_catchall_of_literal n :
  wild_of (part n) = Some false -> is_catchall n = false.
Proof.
  destruct n as [pat [|c s] cs w]; simpl; [done|]. intros [= H].
  apply orb_false_iff in H as [_ H]. unfold is_catchall. simpl part.
  destruct (String.prefix "*" (String c s)) eqn:E; [|done].
  apply String.prefix_correct in E. simpl in E. injection E as ->.
  by rewrite Ascii.eqb_refl in H.
Qed.

(** A segment that starts with a star is a catch-all. *)
Lemma catchall_of_star n s : part n = String "*" s -> is_catchall n = true.
Proof. unfold is_catchall. intros ->. by destruct s. Qed.

(** A literal segment is never a [:name] segment. *)
Lemma literal_not_param lit x : wild_of lit = Some false -> String.eqb lit (String ":" x) = false.
Proof.
  intros Hw. apply String.eqb_neq. intros ->. simpl in Hw. discriminate.
Qed.

(** ** Idempotence, panics, and the pattern argument *)

(** C4: insert is idempotent. If inserting a route returns, inserting
    the same route again into the result returns that result unchanged.
    The second call follows the same first candidates and creates
    nothing. *)
Theorem insert_idempotent pat parts t t' :
  insert pat parts 0 t = Returned t' tt -> insert pat parts 0 t' = Returned t' tt.
Proof.
  revert t'. pattern pat, 0, t, (insert pat parts 0 t).
  apply insert_ind; [| | | |lia]; clear pat t.
  - intros pat n n' [= <-]. by rewrite insert_done.
  - intros pat h n p i c Hp Hm IH n' Hins.
    apply map_state_Returned in Hins as (c' & Hc' & ->).
    pose proof (lookup_Some_lt _ _ _ Hp).
    destruct (insert_receiver p parts (S h) c) as [Hpart Hwild]; [lia|]. rewrite Hc' in *.
    pose proof Hm as (Hi & Hcand & _)%matchChild_Some. simpl in Hpart, Hwild.
    assert (is_candidate p c' = true) as Hcand'
      by by rewrite (is_candidate_same _ _ _ Hpart Hwild).
    rewrite (insert_found _ _ _ _ _ _ _ Hp (matchChild_update _ _ _ _ _ _ Hm Hcand')),
      (IH _ eq_refl).
    simpl. rewrite list_insert_insert_eq. done.
  - intros pat h n p w Hp Hm Hw IH n' Hins.
    apply map_state_Returned in Hins as (c' & Hc' & ->).
    pose proof (lookup_Some_lt _ _ _ Hp).
    pose proof (new_child_candidate p parts (S h) p w) as Hnc. rewrite Hc' in Hnc. simpl in Hnc.
    rewrite (insert_found _ _ _ _ _ _ _ Hp (matchChild_append _ _ _ _ Hm (Hnc ltac:(lia)))),
      (IH _ Hc').
    simpl. rewrite list_insert_id; [done|]. by rewrite lookup_app_r, Nat.sub_diag.
  - intros pat h n _ _ n' [=].
Qed.

(** C5: the pattern argument is ignored. For a route with at least one
    segment, [insert] behaves the same whatever pattern it is given. So
    the node where the route ends never holds the full pattern the
    spec promises (spec 3 and 4.1, step 6). trie.go:49 passes [part]
    where the original code passed [pattern]. *)
Theorem insert_pattern_irrelevant pat1 pat2 parts t :
  parts <> [] -> insert pat1 parts 0 t = insert pat2 parts 0 t.
Proof.
  destruct parts as [|p parts]; [done|]. intros _. unfold insert. simpl.
  destruct (matchChild t p) as [[i c]|]; [done|]. by destruct (wild_of p).
Qed.

(** [insert] panics only where it has to build a node for an empty
    segment. *)
Lemma insert_returns pat parts h n :
  h <= length parts -> Forall (fun s => s <> "") (drop h parts) ->
  returned (insert pat parts h n) = true.
Proof.
  intros Hle. pattern pat, h, n, (insert pat parts h n).
  apply insert_ind; [done| | | |done].
  - intros pat' h' n' p i c Hp _ IH. rewrite returned_map_state, (drop_S _ _ _ Hp).
    rewrite Forall_cons. naive_solver.
  - intros pat' h' n' p w Hp _ _ IH. rewrite returned_map_state, (drop_S _ _ _ Hp).
    rewrite Forall_cons. naive_solver.
  - intros pat' h' n' Hp _. rewrite (drop_S _ _ _ Hp), Forall_cons. naive_solver.
Qed.

(** C6: a route with no empty segment never panics. [insert] returns,
    whatever the trie it is given. *)
Theorem insert_no_panic pat parts t :
  Forall (fun s => s <> "") parts -> exists t', insert pat parts 0 t = Returned t' tt.
Proof.
  intros Hne. pose proof (insert_returns pat parts 0 t ltac:(lia) Hne) as Hr.
  destruct (insert pat parts 0 t) as [t' []|]; [eauto|done].
Qed.

Lemma insert_fresh_panics pat done pre post n :
  children n = [] -> Forall (fun s => s <> "") pre ->
  insert pat (done ++ pre ++ "" :: post) (length done) n =
  Panicked (set_children (fresh_chain pre) n).
Proof.
  revert pat done n. induction pre as [|p pre IH]; intros pat done n Hn Hpre.
  - rewrite insert_empty_segment.
    + destruct n as [pt' pa cs w]. simpl in Hn. by subst.
    + by rewrite lookup_app_r, Nat.sub_diag.
    + unfold matchChild. by rewrite Hn.
  - apply Forall_cons in Hpre as [Hp Hpre].
    destruct p as [|c s']; [done|]. set (p := String c s').
    assert (wild_of p = Some (default false (wild_of p))) as Hw by done.
    assert (matchChild n p = None) as Hm by (unfold matchChild; by rewrite Hn).
    assert ((done ++ (p :: pre) ++ "" :: post) !! length done = Some p) as Hl
      by by rewrite lookup_app_r, Nat.sub_diag.
    rewrite (insert_new _ _ _ _ p _ Hl Hm Hw).
    replace (done ++ (p :: pre) ++ "" :: post) with ((done ++ [p]) ++ pre ++ "" :: post)
      by by rewrite <- app_assoc.
    replace (S (length done)) with (length (done ++ [p])) by (rewrite length_app; simpl; lia).
    rewrite IH by done. simpl. by rewrite Hn.
Qed.

(** C7: a panic keeps what was built before it. Inserting a route
    with an empty segment into a node with no children panics on that
    segment at trie.go:45, after appending one fresh node for each
    earlier (non-empty) segment. Those nodes stay in the trie, as the
    chain [fresh_chain], unregistered. *)
Theorem insert_panic_keeps_prefix pat pre post n :
  children n = [] -> Forall (fun s => s <> "") pre ->
  insert pat (pre ++ "" :: post) 0 n = Panicked (set_children (fresh_chain pre) n).
Proof. apply (insert_fresh_panics pat []). Qed.

(** ** Catch-all and wild segments *)

(** C11: a catch-all needs a segment. After registering [/a/*rest],
    every path [/a/...] with at least one more segment is routed to the
    catch-all node, but [/a] itself is not. [search] gets to the
    catch-all node only by descending into it for a segment
    (trie.go:60-64). Section 8 of the spec says [/a/*rest] matches [/a]. *)
Theorem catchall_needs_segment ps :
  ps <> [] ->
  search (state_of (insert "/a/*rest" ["a"; "*rest"] 0 root)) ["a"] 0 = None /\
  search (state_of (insert "/a/*rest" ["a"; "*rest"] 0 root)) ("a" :: ps) 0 =
    Some (mkNode "*rest" "*rest" [] true).
Proof.
  destruct ps as [|q ps]; [done|]. intros _. split; [reflexivity|]. simpl.
  rewrite (search_step _ _ _ "a") by done. simpl.
  rewrite (search_step _ _ _ q), matchChildren_all_wild by (repeat constructor). simpl.
  by rewrite search_stop by (right; done).
Qed.

(** C12: a wild child captures a later literal route. Register
    [/a/:x] for a literal segment [a], then [/a/lit]. The segment [lit]
    is placed in the existing [:x] node, which then holds the pattern
    [lit], and no node for [lit] exists. Every path [/a/v] resolves to
    that node, [lit] and any other [v] alike. This is the explicit test
    the spec asks for in section 8. *)
Theorem wild_child_captures_literal pat1 pat2 a x lit :
  wild_of a = Some false ->
  let t := state_of (insert pat2 [a; lit] 0
             (state_of (insert pat1 [a; String ":" x] 0 root))) in
  t = mkNode "" "" [mkNode "" a [mkNode lit (String ":" x) [] true] false] false /\
  forall v, lit <> "" -> search t [a; v] 0 = Some (mkNode lit (String ":" x) [] true).
Proof.
  intros Ha t.
  assert (t = mkNode "" "" [mkNode "" a [mkNode lit (String ":" x) [] true] false] false)
    as Ht.
  { subst t. unfold insert. simpl. rewrite Ha. simpl. unfold matchChild. simpl.
    rewrite decide_True by (unfold is_candidate; by rewrite String.eqb_refl). simpl.
    rewrite decide_True by (unfold is_candidate; by rewrite orb_true_r). done. }
  split; [done|]. intros v Hlit. rewrite Ht.
  rewrite (search_step _ _ _ a) by done. unfold matchChildren at 1. simpl.
  rewrite filter_cons_True by (unfold is_candidate; by rewrite String.eqb_refl). simpl.
  rewrite (search_step _ _ _ v) by (done || by apply not_catchall_of_literal).
  rewrite matchChildren_all_wild by (repeat constructor). cbn [first_some children].
  rewrite search_stop by (left; reflexivity). cbn [pattern].
  by destruct (String.eqb_spec lit "").
Qed.

(** A registered catch-all in the first slot answers every path that
    has a segment below its parent. *)
Lemma search_first_catchall n c cs parts h p :
  children n = c :: cs -> isWild c = true -> is_catchall c = true ->
  pattern c <> "" -> is_catchall n = false -> parts !! h = Some p ->
  search n parts h = Some c.
Proof.
  intros Hch Hw Hc Hpat Hn Hp. rewrite (search_step _ _ _ _ Hn Hp).
  unfold matchChildren. rewrite Hch, filter_cons_True
    by (unfold is_candidate; by rewrite Hw, orb_true_r).
  simpl. rewrite search_stop by auto. by destruct (String.eqb_spec (pattern c) "").
Qed.

(** C18: a catch-all captures the routes inserted through it. If the
    first child of the root is a registered catch-all such as [/*f],
    then [insert] of any later route with two or more segments descends
    into it, because a catch-all is wild. [search] for that route stops
    at the catch-all and returns it with its old pattern. The node
    where the later route ends is never returned. *)
Theorem catchall_captures_later_routes pat parts t c cs :
  children t = c :: cs -> isWild c = true -> is_catchall c = true ->
  pattern c <> "" -> is_catchall t = false -> 2 <= length parts ->
  exists r, search (state_of (insert pat parts 0 t)) parts 0 = Some r /\
    part r = part c /\ pattern r = pattern c.
Proof.
  intros Hch Hw Hc Hpat Ht Hlen. destruct parts as [|p parts]; [simpl in Hlen; lia|].
  assert (matchChild t p = Some (0, c)) as Hm.
  { unfold matchChild. rewrite Hch. simpl. rewrite decide_True; [done|].
    unfold is_candidate. by rewrite Hw, orb_true_r. }
  rewrite (insert_found pat (p :: parts) 0 _ _ _ _ eq_refl Hm), state_of_map_state.
  set (c' := state_of (insert p (p :: parts) 1 c)).
  destruct (insert_receiver p (p :: parts) 1 c) as [Hpart Hwild]; [simpl; lia|].
  assert (pattern c' = pattern c) as Hpat' by (apply insert_keeps_pattern; simpl in *; lia).
  exists c'. split_and!; [|done|done].
  apply (search_first_catchall _ _ cs _ _ p); [by rewrite Hch| |unfold is_catchall in *;
    fold c' in Hpart; by rewrite Hpart|by rewrite Hpat'|done|done].
  by fold c' in Hwild; rewrite Hwild.
Qed.

(** C30: registration order decides what a literal path reaches.
    Register [a/lit] for literal segments [a] and [lit], then [a/:x]:
    the reverse of C12. Now [matchChild] finds no candidate for [:x]
    among [lit]'s siblings, so both children exist, in insertion order.
    The path [a/lit] reaches the node for [lit], and every other [a/v]
    reaches the node for [:x]. *)
Theorem literal_first_keeps_both pat1 pat2 a lit x :
  wild_of a = Some false -> wild_of lit = Some false ->
  let t := state_of (insert pat2 [a; String ":" x] 0
             (state_of (insert pat1 [a; lit] 0 root))) in
  t = mkNode "" "" [mkNode "" a [mkNode lit lit [] false;
                                 mkNode (String ":" x) (String ":" x) [] true] false] false /\
  search t [a; lit] 0 = Some (mkNode lit lit [] false) /\
  forall v, v <> lit -> search t [a; v] 0 = Some (mkNode (String ":" x) (String ":" x) [] true).
Proof.
  intros Ha Hl t.
  assert (t = mkNode "" "" [mkNode "" a [mkNode lit lit [] false;
                 mkNode (String ":" x) (String ":" x) [] true] false] false) as Ht.
  { subst t. unfold insert. simpl. rewrite Ha, Hl. simpl. unfold matchChild. simpl.
    rewrite decide_True by (unfold is_candidate; by rewrite String.eqb_refl). simpl.
    rewrite decide_False by (unfold is_candidate; by rewrite literal_not_param). done. }
  assert (lit <> "") as Hne by (intros ->; discriminate).
  assert (forall v, search t [a; v] 0 =
            first_some (fun c => search c [a; v] 2)
              (matchChildren (mkNode "" a [mkNode lit lit [] false;
                 mkNode (String ":" x) (String ":" x) [] true] false) v)) as Hs.
  { intros v. rewrite Ht, (search_step _ _ _ a) by done. unfold matchChildren at 1. simpl.
    rewrite filter_cons_True by (unfold is_candidate; by rewrite String.eqb_refl). simpl.
    rewrite (search_step _ _ _ v) by (done || by apply not_catchall_of_literal).
    by destruct (first_some _ _). }
  split_and!; [done| |].
  - rewrite Hs. unfold matchChildren. cbn [children].
    rewrite filter_cons_True by (unfold is_candidate; by rewrite String.eqb_refl).
    cbn [first_some]. rewrite search_stop by (left; reflexivity). cbn [pattern].
    by destruct (String.eqb_spec lit "").
  - intros v Hv. rewrite Hs. unfold matchChildren. cbn [children].
    rewrite filter_cons_False by (unfold is_candidate; rewrite orb_false_r;
      by apply not_true_iff_false, String.eqb_neq).
    rewrite filter_cons_True by (unfold is_candidate; by rewrite orb_true_r).
    cbn [first_some]. by rewrite search_stop by (left; reflexivity).
Qed.

(** ** Witnesses *)

Lemma insert_idempotent_witness :
  insert "/p/:id/z" ["p"; ":id"; "z"] 0 demo_trie = Returned demo_trie tt.
Proof.
  apply (insert_idempotent _ _ (state_of (insert "/p/x/y" ["p"; "x"; "y"] 0 root))).
  reflexivity.
Defined.

Lemma insert_pattern_irrelevant_witness :
  insert "/p/:id" ["p"; ":id"] 0 root = insert ":id" ["p"; ":id"] 0 root.
Proof. apply insert_pattern_irrelevant. discriminate. Defined.

Lemma insert_no_panic_witness :
  exists t', insert "/p/x/y" ["p"; "x"; "y"] 0 demo_trie = Returned t' tt.
Proof. apply insert_no_panic. repeat constructor; discriminate. Defined.

Lemma insert_panic_keeps_prefix_witness :
  insert "/a//b" (["a"] ++ "" :: ["b"]) 0 root =
  Panicked (mkNode "" "" [mkNode "" "a" [] false] false).
Proof. apply insert_panic_keeps_prefix; [reflexivity|repeat constructor; discriminate]. Defined.

Lemma catchall_needs_segment_witness :
  search (state_of (insert "/a/*rest" ["a"; "*rest"] 0 root)) ["a"] 0 = None /\
  search (state_of (insert "/a/*rest" ["a"; "*rest"] 0 root)) ["a"; "b"; "c"] 0 =
    Some (mkNode "*rest" "*rest" [] true).
Proof. apply (catchall_needs_segment ["b"; "c"]). discriminate. Defined.

Lemma wild_child_captures_literal_witness :
  let t := state_of (insert "/p/new" ["p"; "new"] 0
             (state_of (insert "/p/:id" ["p"; ":id"] 0 root))) in
  t = mkNode "" "" [mkNode "" "p" [mkNode "new" ":id" [] true] false] false /\
  forall v, "new" <> "" -> search t ["p"; v] 0 = Some (mkNode "new" ":id" [] true).
Proof. apply (wild_child_captures_literal "/p/:id" "/p/new" "p" "id" "new"). reflexivity. Defined.

Lemma literal_first_keeps_both_witness :
  let t := state_of (insert "/p/:id" ["p"; ":id"] 0
             (state_of (insert "/p/new" ["p"; "new"] 0 root))) in
  t = mkNode "" "" [mkNode "" "p" [mkNode "new" "new" [] false;
                                   mkNode ":id" ":id" [] true] false] false /\
  search t ["p"; "new"] 0 = Some (mkNode "new" "new" [] false) /\
  forall v, v <> "new" -> search t ["p"; v] 0 = Some (mkNode ":id" ":id" [] true).
Proof. apply (literal_first_keeps_both "/p/new" "/p/:id" "p" "new" "id"); reflexivity. Defined.

Lemma catchall_captures_later_routes_witness :
  exists r, search (state_of (insert "/x/y" ["x"; "y"] 0
      (state_of (insert "/*f" ["*f"] 0 root)))) ["x"; "y"] 0 = Some r /\
    part r = "*f" /\ pattern r = "*f".
Proof.
  apply (catchall_captures_later_routes "/x/y" ["x"; "y"] _
    (mkNode "*f" "*f" [] true) []); try reflexivity; discriminate.
Defined.

End Trie.
