(* ===== verification/TrieSpec.v ===== *)
(** * What the route trie promises, and the proofs that it keeps it

    This file holds the specification side of [Trie].
    - [matches]: the abstract matching relation that [search]
      implements. At each level any candidate child may be taken.
      [search] is sound (C1) and complete (C2) for it.
    - [wf_node] / [wf_trie]: the well-formedness invariant. Every node
      below the root has a non-empty segment, and its [isWild] flag is
      the one trie.go:45 derives from the segment's first byte.
      [insert] preserves it (C8).
    - [extends]: a trie grown from another by appending children and
      registering patterns, the spec's "append-only" (section 3).
      [insert] only extends (C9), so routable paths stay routable (C10).
    - [path_clear] and [stored_pattern]: the precondition and the result
      of the insert-then-search round trip (C3).
    - [all_matches]: the exhaustive search, every match in depth-first,
      left-to-right order. [search] returns its first element (C19), and
      [matches] characterises the nodes it can list.
    - [levels], [catchall_free] and [instance_seg]: for the spec's
      section 8 properties, a path longer than every route finds
      nothing (C25), and a route answers its instances (C26).
    - [routes_at]: every stored route has the same number of
      segments. [insert] keeps it (C27), and then a path of another
      length finds nothing (C28).
    - [unregistered] and [fresh_ext]: what a panicking [insert] leaves,
      the trie with unregistered trees appended. It routes exactly what
      the original routes (C31).
    The proofs about [insert] use [Trie.insert_ind]. The proofs about
    [search] use induction on [length parts - height] or on [matches]. *)

From stdpp Require Import base list strings.
From S2P Require Import Prelude Trie.
Import Trie.


Module TrieSpec.

(** ** Definitions *)

(** A node below the root: its flag is derived from its non-empty
    segment, and so are its descendants' flags. *)
Fixpoint wf_node (n : node) : bool :=
  bool_decide (wild_of (part n) = Some (isWild n)) && forallb wf_node (children n).

(** The root carries no segment of its own; its descendants are
    well formed. *)
Definition wf_trie (t : node) : bool := forallb wf_node (children t).

(** [matches parts height n r]: from node [n] at depth [height], the
    path [parts] can reach node [r]. [r] is a registered node (non-empty
    pattern) where the path ends or a catch-all absorbs the rest. *)
Inductive matches (parts : list string) : nat -> node -> node -> Prop :=
| matches_stop height n :
    (height = length parts \/ is_catchall n = true) -> pattern n <> "" ->
    matches parts height n n
| matches_child height n p c r :
    height <> length parts -> is_catchall n = false ->
    parts !! height = Some p -> c ∈ children n -> is_candidate p c = true ->
    matches parts (S height) c r -> matches parts height n r.

(** [extends n n']: [n'] is [n] after appending children (at any depth)
    and registering patterns. Segments and flags never change, no
    child is removed or reordered, and a registered node stays
    registered. *)
Inductive extends : node -> node -> Prop :=
| extends_intro n n' cs' extra :
    part n' = part n -> isWild n' = isWild n ->
    (pattern n <> "" -> pattern n' <> "") ->
    Forall2 extends (children n) cs' -> children n' = cs' ++ extra ->
    extends n n'.

(** No node of the tree is registered. *)
Fixpoint unregistered (n : node) : bool :=
  String.eqb (pattern n) "" && forallb unregistered (children n).

(** [fresh_ext n n']: [n'] is [n] with trees of unregistered nodes
    appended below it, and nothing else changed: segments, flags and
    patterns stay, no child is removed or reordered. This is what a
    panicking [insert] leaves behind. *)
Inductive fresh_ext : node -> node -> Prop :=
| fresh_ext_intro n n' cs' extra :
    part n' = part n -> isWild n' = isWild n -> pattern n' = pattern n ->
    Forall2 fresh_ext (children n) cs' ->
    Forall (fun c => unregistered c = true) extra ->
    children n' = cs' ++ extra -> fresh_ext n n'.

(** The node reached by following the first candidate child for each
    segment, as [insert] does (trie.go:42); [None] where no child is a
    candidate. *)
Fixpoint descend (n : node) (ps : list string) : option node :=
  match ps with
  | [] => Some n
  | p :: ps' => match matchChild n p with Some (_, c) => descend c ps' | None => None end
  end.

(** The pattern [insert pat parts height] stores at the node where the
    route ends. Because trie.go:49 passes [part] down, this is the last
    segment unless the route has no segment below [height]. *)
Definition stored_pattern (pat : string) (parts : list string) (height : nat)
    : string :=
  default pat (last (drop height parts)).

(** The route does not run through a catch-all node before its last
    segment. [rest] holds the segments still to place below [n]. The
    route follows the path [insert] takes: the existing first candidate
    at each level, then the new nodes built from the remaining segments,
    all but the last of which must not start with ['*']. *)
Fixpoint clear_from (n : node) (rest : list string) : bool :=
  match rest with
  | [] => true
  | p :: rest' =>
      negb (is_catchall n) &&
      match matchChild n p with
      | Some (_, c) => clear_from c rest'
      | None => forallb (fun s => negb (String.prefix "*" s)) (removelast rest)
      end
  end.

Definition path_clear (n : node) (parts : list string) (height : nat) : bool :=
  clear_from n (drop height parts).

(** [routes_at d K n]: [n] sits at depth [d], and every registered
    node of its subtree sits at depth [K], so every route stored in it
    has [K] segments. *)
Fixpoint routes_at (d K : nat) (n : node) : bool :=
  (String.eqb (pattern n) "" || Nat.eqb d K) && forallb (routes_at (S d) K) (children n).

(** A request segment [p'] is an instance of a route segment [p] when it
    is the same text, or [p] is a named parameter [:name] (spec 8). *)
Definition instance_seg (p p' : string) : Prop :=
  p' = p \/ String.prefix ":" p = true.

(** The number of levels of a tree: one for the node, plus the most
    of any child. A route of [k] segments ends at level [k + 1]. *)
Fixpoint levels (n : node) : nat := S (max_list_with levels (children n)).

(** No node of the tree is a catch-all. *)
Fixpoint catchall_free (n : node) : bool :=
  negb (is_catchall n) && forallb catchall_free (children n).

(** The exhaustive search: every node [search] could return, in the
    order of a depth-first, left-to-right walk over the candidates.
    It recurses structurally on the tree and needs no fuel. *)
Fixpoint all_matches (n : node) (parts : list string) (height : nat)
    : list node :=
  if Nat.eqb (length parts) height || is_catchall n then
    if String.eqb (pattern n) "" then [] else [n]
  else
    match parts !! height with
    | None => []
    | Some p =>
        (fix go (cs : list node) : list node :=
           match cs with
           | [] => []
           | c :: cs' =>
               (if is_candidate p c then all_matches c parts (S height) else [])
               ++ go cs'
           end) (children n)
    end.

(** ** Search: soundness and completeness against [matches] *)

Lemma search_out_of_range n parts height :
  is_catchall n = false -> parts !! height = None -> height <> length parts ->
  search n parts height = None.
Proof.
  intros Hc Hp Hh. unfold search. simpl.
  destruct (Nat.eqb_spec (length parts) height); [lia|]. by rewrite Hc, Hp.
Qed.

Lemma search_matches n parts height r :
  search n parts height = Some r -> matches parts height n r.
Proof.
  remember (length parts - height) as k eqn:Hk. revert n height Hk.
  induction k as [k IH] using lt_wf_ind. intros n height Hk Hs.
  destruct (decide (height = length parts \/ is_catchall n = true)) as [Hstop|Hgo].
  - rewrite search_stop in Hs by done.
    destruct (String.eqb_spec (pattern n) ""); simplify_eq. by constructor.
  - assert (height <> length parts /\ is_catchall n = false) as [Hh Hc]
      by (destruct (is_catchall n); tauto).
    destruct (parts !! height) as [p|] eqn:Hp;
      [|by rewrite search_out_of_range in Hs].
    rewrite (search_step _ _ _ _ Hc Hp) in Hs.
    apply first_some_Some in Hs as (c & Hc' & Hcs).
    apply elem_of_matchChildren in Hc' as [Hin Hcand].
    pose proof (lookup_Some_lt _ _ _ Hp).
    eapply matches_child; eauto. eapply IH; [|reflexivity|done]. lia.
Qed.

(** C1: soundness of search. Every node [search] returns is registered
    and reachable from the receiver along candidates for the path's
    segments. It stops where the path ends or at a catch-all. *)
Theorem search_sound n parts height r :
  search n parts height = Some r -> matches parts height n r.
Proof. apply search_matches. Qed.

Lemma matches_search n parts height r :
  matches parts height n r -> exists r', search n parts height = Some r'.
Proof.
  induction 1 as [height n Hstop Hpat|height n p c r Hh Hc Hp Hin Hcand _ IH].
  - rewrite search_stop by done.
    destruct (String.eqb_spec (pattern n) ""); [done|eauto].
  - rewrite (search_step _ _ _ _ Hc Hp).
    apply (first_some_elem_of _ _ c); [by apply elem_of_matchChildren|].
    destruct IH as [r' ->]. by eexists.
Qed.

(** C2: completeness of search. This is why [search] backtracks. If
    any candidate path reaches a registered node, [search] returns a
    node, even when the first candidate at some level leads nowhere. *)
Theorem search_complete n parts height r :
  matches parts height n r -> exists r', search n parts height = Some r'.
Proof. apply matches_search. Qed.

(** Every node a path matches is registered. *)
Lemma matches_registered parts h n r : matches parts h n r -> pattern r <> "".
Proof. by induction 1. Qed.

(** ** Search is the first answer of the exhaustive search *)

Lemma all_matches_stop n parts height :
  height = length parts \/ is_catchall n = true ->
  all_matches n parts height = if String.eqb (pattern n) "" then [] else [n].
Proof.
  destruct n as [pat pt cs w]. intros H. simpl.
  destruct H as [-> | H]; [by rewrite Nat.eqb_refl|]. simpl in H. by rewrite H, orb_true_r.
Qed.

Lemma all_matches_step n parts height p :
  is_catchall n = false -> parts !! height = Some p ->
  all_matches n parts height =
  mjoin ((fun c => all_matches c parts (S height)) <$> matchChildren n p).
Proof.
  intros Hc Hp. pose proof (lookup_Some_lt _ _ _ Hp).
  destruct n as [pat pt cs w]. simpl. simpl in Hc. rewrite Hc, Hp.
  destruct (Nat.eqb_spec (length parts) height); [lia|]. simpl.
  unfold matchChildren. simpl. clear Hc.
  induction cs as [|c cs IH]; [done|]. rewrite filter_cons.
  destruct (is_candidate p c); simpl; rewrite IH; done.
Qed.

Lemma all_matches_out_of_range n parts height :
  is_catchall n = false -> parts !! height = None -> height <> length parts ->
  all_matches n parts height = [].
Proof.
  destruct n as [pat pt cs w]. intros Hc Hp Hh. simpl. simpl in Hc.
  destruct (Nat.eqb_spec (length parts) height); [lia|]. by rewrite Hc, Hp.
Qed.

(** C19: the optimised search equals the exhaustive one. [search]
    stops at the first success (trie.go:64-66). What it returns is the
    first node of [all_matches], which walks every candidate depth-first
    and left to right. So the early exit changes the cost and never the
    answer, and the answer is the leftmost match. *)
Theorem search_first_match n parts height :
  search n parts height = head (all_matches n parts height).
Proof.
  revert height. induction n as [pat pt cs w IH] using node_ind_nested. intros height.
  set (n := mkNode pat pt cs w).
  destruct (decide (height = length parts \/ is_catchall n = true)) as [Hstop|Hgo].
  { rewrite search_stop, all_matches_stop by done. by destruct (String.eqb (pattern n) ""). }
  assert (height <> length parts /\ is_catchall n = false) as [Hh Hc]
    by (destruct (is_catchall n); tauto).
  destruct (parts !! height) as [p|] eqn:Hp.
  - rewrite (search_step _ _ _ _ Hc Hp), (all_matches_step _ _ _ _ Hc Hp).
    apply first_some_head_mjoin. intros c [Hin _]%elem_of_matchChildren.
    rewrite Forall_forall in IH. by apply IH.
  - by rewrite search_out_of_range, all_matches_out_of_range.
Qed.

(** ** Paths longer than every route *)

Lemma max_list_with_elem_of {A} (f : A -> nat) (l : list A) x :
  x ∈ l -> f x <= max_list_with f l.
Proof.
  induction l as [|y l IH]; [by intros ?%elem_of_nil|]. simpl.
  intros [->|Hx]%elem_of_cons; [lia|]. specialize (IH Hx). lia.
Qed.

Lemma levels_child n c : c ∈ children n -> levels c < levels n.
Proof.
  destruct n as [pat pt cs w]. simpl. intros Hc.
  pose proof (max_list_with_elem_of levels cs c Hc). lia.
Qed.

Lemma catchall_free_eq n :
  catchall_free n = true <->
  is_catchall n = false /\ Forall (fun c => catchall_free c = true) (children n).
Proof.
  destruct n as [pat pt cs w]. simpl.
  rewrite andb_true_iff, negb_true_iff, forallb_Forall. done.
Qed.

Lemma matches_levels parts h n r :
  matches parts h n r -> catchall_free n = true -> h + levels n <= length parts -> False.
Proof.
  induction 1 as [h n Hstop _|h n p c r _ _ Hp Hin _ _ IH];
    intros [Hc Hcs]%catchall_free_eq Hlen.
  - destruct Hstop as [->|Hstop]; [|congruence]. destruct n; simpl in Hlen. lia.
  - apply IH; [by apply (proj1 (Forall_forall _ _) Hcs)|].
    pose proof (levels_child n c Hin). lia.
Qed.

(** C25: a path longer than every route finds nothing. In a trie with
    no catch-all node, a path with at least as many segments as the
    trie has levels (more segments than any registered route) resolves
    to no match (spec section 8). *)
Theorem too_long_path_no_match t parts :
  catchall_free t = true -> levels t <= length parts -> search t parts 0 = None.
Proof.
  intros Hfree Hlen. destruct (search t parts 0) as [r|] eqn:Hs; [|done].
  exfalso. apply (matches_levels parts 0 t r); [by apply search_matches|done|done].
Qed.

(** ** Routes of one length *)

Lemma routes_at_eq d K n :
  routes_at d K n = true <->
  (pattern n <> "" -> d = K) /\ Forall (fun c => routes_at (S d) K c = true) (children n).
Proof.
  destruct n as [pat pt cs w]. simpl.
  rewrite andb_true_iff, orb_true_iff, forallb_Forall, String.eqb_eq, Nat.eqb_eq.
  split.
  - intros [Hd H]. split; [|done]. intros Hp. by destruct Hd.
  - intros [Hd H]. split; [|done]. destruct (String.eqb_spec pat ""); [by left|right; auto].
Qed.

Lemma matches_routes_at parts h n r K :
  matches parts h n r -> routes_at h K n = true -> catchall_free n = true ->
  length parts = K.
Proof.
  induction 1 as [h n Hstop Hpat|h n p c r _ _ _ Hin _ _ IH];
    intros [HK Hcs]%routes_at_eq [Hc Hfree]%catchall_free_eq.
  - destruct Hstop as [->|]; [by apply HK|congruence].
  - rewrite Forall_forall in Hcs, Hfree. auto.
Qed.

(** C27: routes of one length stay of one length. If every route
    stored in a trie has [K] segments, inserting a route of [K]
    segments keeps it so, whether the insert returns or panics. *)
Theorem insert_keeps_route_length pat parts t :
  routes_at 0 (length parts) t = true ->
  routes_at 0 (length parts) (state_of (insert pat parts 0 t)) = true.
Proof.
  cut (forall h, h <= length parts -> routes_at h (length parts) t = true ->
         routes_at h (length parts) (state_of (insert pat parts h t)) = true);
    [intros H; apply H; lia|].
  intros h Hle. pattern pat, h, t, (insert pat parts h t).
  apply insert_ind; [| | | |done]; clear pat h t Hle.
  - intros pat n [_ Hcs]%routes_at_eq. apply routes_at_eq. simpl. auto.
  - intros pat h n p i c Hp Hm IH [HK Hcs]%routes_at_eq.
    rewrite state_of_map_state. apply routes_at_eq. simpl. split; [done|].
    apply Forall_insert; [done|]. apply IH.
    apply matchChild_Some in Hm as (Hi & _). by apply (proj1 (Forall_lookup _ _) Hcs _ _ Hi).
  - intros pat h n p w Hp Hm Hw IH [HK Hcs]%routes_at_eq.
    rewrite state_of_map_state. apply routes_at_eq. simpl. split; [done|].
    apply Forall_app. split; [done|]. apply Forall_singleton, IH. done.
  - done.
Qed.

(** C28: a path of the wrong length finds nothing. In a trie with no
    catch-all whose routes all have [K] segments, a path with a number
    of segments other than [K] resolves to no match: no partial or
    prefix match is returned (spec sections 4.2 and 8). *)
Theorem search_wrong_length_no_match t parts K :
  routes_at 0 K t = true -> catchall_free t = true -> length parts <> K ->
  search t parts 0 = None.
Proof.
  intros HK Hfree Hlen. destruct (search t parts 0) as [r|] eqn:Hs; [|done].
  exfalso. apply Hlen. by eapply matches_routes_at; [apply search_matches|..].
Qed.

(** ** Insert, then search *)

Lemma stored_pattern_step pat parts h p :
  parts !! h = Some p -> stored_pattern pat parts h = stored_pattern p parts (S h).
Proof.
  intros Hp. unfold stored_pattern. rewrite (drop_S _ _ _ Hp), last_cons.
  by destruct (last (drop (S h) parts)).
Qed.

Lemma stored_pattern_done pat parts : stored_pattern pat parts (length parts) = pat.
Proof. unfold stored_pattern. by rewrite drop_all. Qed.

Lemma path_clear_step n parts h p :
  parts !! h = Some p -> path_clear n parts h = true ->
  is_catchall n = false /\
  match matchChild n p with
  | Some (_, c) => path_clear c parts (S h) = true
  | None => forallb (fun s => negb (String.prefix "*" s))
              (removelast (p :: drop (S h) parts)) = true
  end.
Proof.
  intros Hp. unfold path_clear. rewrite (drop_S _ _ _ Hp). simpl.
  rewrite andb_true_iff, negb_true_iff. intros [-> H]. split; [done|].
  by destruct (matchChild n p) as [[]|].
Qed.

(** A fresh node built for segment [p], followed by fresh nodes for
    [rest], is clear when no segment but the last starts with ['*']. *)
Lemma clear_from_fresh p w rest :
  forallb (fun s => negb (String.prefix "*" s)) (removelast (p :: rest)) = true ->
  clear_from (mkNode "" p [] w) rest = true.
Proof.
  destruct rest as [|q rest]; [done|]. simpl.
  rewrite !andb_true_iff, !negb_true_iff. intros [Hp Hrest].
  unfold is_catchall. simpl. by rewrite Hp.
Qed.

Lemma search_first_candidate m parts h p i c r :
  parts !! h = Some p -> is_catchall m = false ->
  matchChild m p = Some (i, c) -> search c parts (S h) = Some r ->
  search m parts h = Some r.
Proof.
  intros Hp Hc Hm Hs. rewrite (search_step _ _ _ _ Hc Hp).
  destruct (matchChildren_first _ _ _ _ Hm) as [rest ->]. simpl. by rewrite Hs.
Qed.

Lemma insert_search_found pat parts t t' :
  insert pat parts 0 t = Returned t' tt ->
  path_clear t parts 0 = true -> stored_pattern pat parts 0 <> "" ->
  exists r, search t' parts 0 = Some r /\ pattern r = stored_pattern pat parts 0.
Proof.
  revert t'. pattern pat, 0, t, (insert pat parts 0 t).
  apply insert_ind; [| | | |lia]; clear pat t.
  - intros pat n n' [= <-] _ Hpat. rewrite stored_pattern_done in *.
    exists (set_pattern pat n). rewrite search_stop by auto. simpl.
    by destruct (String.eqb_spec pat "").
  - intros pat h n p i c Hp Hm IH n' Hins Hclear Hpat.
    apply map_state_Returned in Hins as (c' & Hc' & ->).
    apply (path_clear_step _ _ _ _ Hp) in Hclear as [Hcatch Hclear]. rewrite Hm in Hclear.
    rewrite (stored_pattern_step _ _ _ _ Hp) in *.
    destruct (IH c' Hc' Hclear Hpat) as (r & Hs & Hr). exists r. split; [|done].
    pose proof (lookup_Some_lt _ _ _ Hp).
    destruct (insert_receiver p parts (S h) c) as [Hpart Hwild]; [lia|]. rewrite Hc' in *.
    eapply search_first_candidate; [done| |eapply matchChild_update; [done|]|done].
    + done.
    + apply matchChild_Some in Hm as (_ & Hcand & _).
      by rewrite (is_candidate_same _ _ _ Hpart Hwild).
  - intros pat h n p w Hp Hm Hw IH n' Hins Hclear Hpat.
    apply map_state_Returned in Hins as (c' & Hc' & ->).
    apply (path_clear_step _ _ _ _ Hp) in Hclear as [Hcatch Hclear]. rewrite Hm in Hclear.
    rewrite (stored_pattern_step _ _ _ _ Hp) in *.
    destruct (IH c' Hc' (clear_from_fresh _ _ _ Hclear) Hpat) as (r & Hs & Hr).
    exists r. split; [|done]. pose proof (lookup_Some_lt _ _ _ Hp).
    eapply search_first_candidate; [done|done|apply matchChild_append; [done|]|done].
    pose proof (new_child_candidate p parts (S h) p w) as Hnc. rewrite Hc' in Hnc. simpl in Hnc.
    apply Hnc. lia.
  - intros pat h n _ _ n' [=].
Qed.

(** C3: insert, then search. A route inserted without a panic is found
    again. [search] returns a node that holds the pattern [insert]
    stores ([stored_pattern]). This holds when that pattern is
    non-empty and the route does not pass through a catch-all before
    its last segment. *)
Theorem insert_search_roundtrip pat parts t t' :
  insert pat parts 0 t = Returned t' tt ->
  path_clear t parts 0 = true -> stored_pattern pat parts 0 <> "" ->
  exists r, search t' parts 0 = Some r /\ pattern r = stored_pattern pat parts 0.
Proof. apply insert_search_found. Qed.

(** ** Insert sets the pattern of the node at the end of its path *)

Lemma insert_descend pat parts h n n' :
  h <= length parts -> insert pat parts h n = Returned n' tt ->
  exists r, descend n' (drop h parts) = Some r /\ pattern r = stored_pattern pat parts h.
Proof.
  intros Hle. revert n'. pattern pat, h, n, (insert pat parts h n).
  apply insert_ind; [| | | |done]; clear pat h n Hle.
  - intros pat n n' [= <-]. rewrite drop_all, stored_pattern_done. by eexists.
  - intros pat h n p i c Hp Hm IH n' (c' & Hc' & ->)%map_state_Returned.
    destruct (IH c' Hc') as (r & Hr & Hpat). exists r.
    rewrite (stored_pattern_step _ _ _ _ Hp), (drop_S _ _ _ Hp). split; [|done]. simpl.
    pose proof (lookup_Some_lt _ _ _ Hp).
    destruct (insert_receiver p parts (S h) c) as [Hpart Hwild]; [lia|]. rewrite Hc' in *.
    pose proof Hm as (_ & Hcand & _)%matchChild_Some.
    rewrite (matchChild_update _ _ _ _ _ _ Hm) by by rewrite (is_candidate_same _ _ _ Hpart Hwild).
    done.
  - intros pat h n p w Hp Hm Hw IH n' (c' & Hc' & ->)%map_state_Returned.
    destruct (IH c' Hc') as (r & Hr & Hpat). exists r.
    rewrite (stored_pattern_step _ _ _ _ Hp), (drop_S _ _ _ Hp). split; [|done]. simpl.
    pose proof (lookup_Some_lt _ _ _ Hp).
    pose proof (new_child_candidate p parts (S h) p w) as Hnc. rewrite Hc' in Hnc.
    by rewrite (matchChild_append _ _ _ _ Hm (Hnc ltac:(lia))).
  - intros pat h n _ _ n' [=].
Qed.

(** C33: insert overwrites the pattern of the node its route ends at.
    After an [insert] that returns, following the first candidate for
    each segment reaches a node whose pattern is exactly the stored
    pattern, whatever it held before. When the route's last segment is
    empty (a pattern ending in ['/']), the stored pattern is empty and
    the node is unregistered, even if another route was registered
    there (trie.go:35 with the part passed at line 49). *)
Theorem insert_sets_terminal pat parts t t' :
  insert pat parts 0 t = Returned t' tt ->
  exists r, descend t' parts = Some r /\ pattern r = stored_pattern pat parts 0.
Proof. intros Hins. rewrite <- (drop_0 parts). by apply (insert_descend pat parts 0 t); [lia|]. Qed.

(** ** The invariant and the append-only discipline *)

Lemma wf_node_eq c :
  wf_node c = true <->
  wild_of (part c) = Some (isWild c) /\ Forall (fun d => wf_node d = true) (children c).
Proof.
  destruct c as [pat pt cs w]. simpl.
  rewrite andb_true_iff, bool_decide_eq_true, forallb_Forall. done.
Qed.

Lemma insert_wf_children pat parts h n :
  h <= length parts ->
  Forall (fun c => wf_node c = true) (children n) ->
  Forall (fun c => wf_node c = true) (children (state_of (insert pat parts h n))).
Proof.
  intros Hle. pattern pat, h, n, (insert pat parts h n).
  apply insert_ind; [done| | | |done]; clear pat h n Hle.
  - intros pat h n p i c Hp Hm IH Hwf. rewrite state_of_map_state. simpl.
    apply Forall_insert; [done|]. apply matchChild_Some in Hm as (Hi & _).
    pose proof (proj1 (Forall_lookup _ _) Hwf _ _ Hi) as (Hw & Hcs)%wf_node_eq.
    destruct (insert_receiver p parts (S h) c) as [Hpart Hwild];
      [pose proof (lookup_Some_lt _ _ _ Hp); lia|].
    apply wf_node_eq. rewrite Hpart, Hwild. auto.
  - intros pat h n p w Hp Hm Hw IH Hwf. rewrite state_of_map_state. simpl.
    apply Forall_app. split; [done|]. apply Forall_singleton.
    destruct (insert_receiver p parts (S h) (mkNode "" p [] w)) as [Hpart Hwild];
      [pose proof (lookup_Some_lt _ _ _ Hp); lia|].
    apply wf_node_eq. rewrite Hpart, Hwild. simpl. auto.
  - done.
Qed.

(** C8: well-formedness is an invariant of [insert]. Starting from a
    well-formed trie, the trie [insert] leaves behind is well formed,
    after a return and after a panic alike. Every node below the root
    has a non-empty segment whose first byte gives its [isWild] flag. *)
Theorem insert_preserves_wf pat parts t :
  wf_trie t = true -> wf_trie (state_of (insert pat parts 0 t)) = true.
Proof.
  unfold wf_trie. rewrite !forallb_Forall. apply insert_wf_children. lia.
Qed.

(** ** Insert, then search an instance of the route *)

Lemma prefix_colon_wild p : String.prefix ":" p = true -> wild_of p = Some true.
Proof.
  destruct p as [|c s]; [done|]. intros E%String.prefix_correct.
  simpl in E. injection E as ->. done.
Qed.

(** In a well-formed node, a candidate for a route segment is a
    candidate for each instance of it. *)
Lemma candidate_instance p p' c :
  is_candidate p c = true -> wild_of (part c) = Some (isWild c) ->
  instance_seg p p' -> is_candidate p' c = true.
Proof.
  intros Hc Hw [->|Hp]; [done|]. unfold is_candidate in *.
  destruct (isWild c); [apply orb_true_r|]. rewrite orb_false_r in Hc.
  apply String.eqb_eq in Hc. rewrite Hc, (prefix_colon_wild _ Hp) in Hw. discriminate.
Qed.

Lemma insert_instance_matches parts parts' pat h n n' :
  Forall2 instance_seg parts parts' -> h <= length parts ->
  insert pat parts h n = Returned n' tt ->
  Forall (fun c => wf_node c = true) (children n) ->
  path_clear n parts h = true -> stored_pattern pat parts h <> "" ->
  exists r, matches parts' h n' r.
Proof.
  intros Hinst Hle. pose proof (Forall2_length _ _ _ Hinst) as Hlen. revert n'.
  pattern pat, h, n, (insert pat parts h n).
  apply insert_ind; [| | | |done]; clear pat h n Hle.
  - intros pat n n' [= <-] _ _ Hpat. rewrite stored_pattern_done in Hpat.
    exists (set_pattern pat n). constructor; [left; lia|done].
  - intros pat h n p i c Hp Hm IH n' Hins Hwf Hclear Hpat.
    apply map_state_Returned in Hins as (c' & Hc' & ->).
    apply (path_clear_step _ _ _ _ Hp) in Hclear as [Hcatch Hclear]. rewrite Hm in Hclear.
    rewrite (stored_pattern_step _ _ _ _ Hp) in Hpat.
    pose proof Hm as (Hi & Hcand & _)%matchChild_Some.
    pose proof (proj1 (Forall_lookup _ _) Hwf _ _ Hi) as [Hwc Hcs]%wf_node_eq.
    destruct (IH c' Hc' Hcs Hclear Hpat) as [r Hr]. exists r.
    destruct (Forall2_lookup_l _ _ _ _ _ Hinst Hp) as (p' & Hp' & Hseg).
    pose proof (lookup_Some_lt _ _ _ Hp). pose proof (lookup_Some_lt _ _ _ Hi).
    destruct (insert_receiver p parts (S h) c) as [Hpart Hwild]; [lia|].
    rewrite Hc' in Hpart, Hwild. simpl in Hpart, Hwild.
    apply (matches_child parts' h _ p' c' r); [lia|done|exact Hp'| | |exact Hr].
    + by apply list_elem_of_insert.
    + rewrite (is_candidate_same _ _ _ Hpart Hwild). by apply (candidate_instance p).
  - intros pat h n p w Hp Hm Hw IH n' Hins Hwf Hclear Hpat.
    apply map_state_Returned in Hins as (c' & Hc' & ->).
    apply (path_clear_step _ _ _ _ Hp) in Hclear as [Hcatch Hclear]. rewrite Hm in Hclear.
    rewrite (stored_pattern_step _ _ _ _ Hp) in Hpat.
    destruct (IH c' Hc' (Forall_nil_2 _) (clear_from_fresh _ _ _ Hclear) Hpat) as [r Hr].
    exists r. destruct (Forall2_lookup_l _ _ _ _ _ Hinst Hp) as (p' & Hp' & Hseg).
    pose proof (lookup_Some_lt _ _ _ Hp).
    destruct (insert_receiver p parts (S h) (mkNode "" p [] w)) as [Hpart Hwild]; [lia|].
    rewrite Hc' in Hpart, Hwild. simpl in Hpart, Hwild.
    apply (matches_child parts' h _ p' c' r); [lia|done|exact Hp'| | |exact Hr].
    + apply elem_of_app. right. by apply list_elem_of_singleton.
    + apply (candidate_instance p); [|by rewrite Hpart, Hwild|done].
      unfold is_candidate. by rewrite Hpart, String.eqb_refl.
  - intros pat h n _ _ n' [=].
Qed.

(** C26: an inserted route answers each of its instances. After an
    [insert] that returns, on a well-formed trie, of a route that does
    not pass through a catch-all and stores a non-empty pattern, every
    path that agrees with the route except on its [:name] segments is
    routed (the first property of spec section 8). Which node answers
    can differ when a literal sibling collides, as the spec's proviso
    says. *)
Theorem insert_search_instance pat parts parts' t t' :
  insert pat parts 0 t = Returned t' tt -> wf_trie t = true ->
  path_clear t parts 0 = true -> stored_pattern pat parts 0 <> "" ->
  Forall2 instance_seg parts parts' ->
  exists r, search t' parts' 0 = Some r.
Proof.
  intros Hins Hwf Hclear Hpat Hinst. unfold wf_trie in Hwf. rewrite forallb_Forall in Hwf.
  destruct (insert_instance_matches parts parts' pat 0 t t' Hinst ltac:(lia) Hins Hwf
    Hclear Hpat) as [r Hr].
  by eapply matches_search.
Qed.

Lemma extends_refl n : extends n n.
Proof.
  induction n as [pat pt cs w IH] using node_ind_nested.
  apply (extends_intro _ _ cs []); [done|done|done| |by rewrite app_nil_r].
  induction IH; constructor; auto.
Qed.

Lemma extends_inv n n' :
  extends n n' ->
  part n' = part n /\ isWild n' = isWild n /\ (pattern n <> "" -> pattern n' <> "") /\
  forall c, c ∈ children n -> exists c', c' ∈ children n' /\ extends c c'.
Proof.
  intros [? ? cs' extra Hpart Hwild Hpat Hcs Hch]. split_and!; [done..|].
  intros c (i & Hi)%list_elem_of_lookup.
  destruct (Forall2_lookup_l _ _ _ _ _ Hcs Hi) as (c' & Hc' & Hext).
  exists c'. split; [|done]. rewrite Hch. apply elem_of_app. left.
  by eapply list_elem_of_lookup_2.
Qed.

(** Every path that matches in a trie matches in any extension of it. *)
Lemma extends_matches parts h n n' r :
  matches parts h n r -> extends n n' -> exists r', matches parts h n' r'.
Proof.
  intros Hm. revert n'.
  induction Hm as [h n Hstop Hpat|h n p c r Hh Hc Hp Hin Hcand _ IH]; intros n' Hext;
    destruct (extends_inv _ _ Hext) as (Hpart & Hwild & Hpat' & Hch).
  - exists n'. constructor; [|auto]. unfold is_catchall. by rewrite Hpart.
  - destruct (Hch c Hin) as (c' & Hin' & Hext'). destruct (IH c' Hext') as [r' Hr'].
    destruct (extends_inv _ _ Hext') as (Hcp & Hcw & _).
    exists r'. eapply matches_child; eauto.
    + unfold is_catchall. by rewrite Hpart.
    + by rewrite (is_candidate_same _ _ _ Hcp Hcw).
Qed.

Lemma insert_extends_gen pat parts h n :
  h <= length parts -> stored_pattern pat parts h <> "" ->
  extends n (state_of (insert pat parts h n)).
Proof.
  intros Hle. pattern pat, h, n, (insert pat parts h n).
  apply insert_ind; [| | | |done]; clear pat h n Hle.
  - intros pat n Hpat. rewrite stored_pattern_done in Hpat. simpl.
    apply (extends_intro _ _ (children n) []); [done|done|done| |by rewrite app_nil_r].
    apply Forall_Forall2_diag, Forall_forall. intros. apply extends_refl.
  - intros pat h n p i c Hp Hm IH Hpat. rewrite state_of_map_state.
    rewrite (stored_pattern_step _ _ _ _ Hp) in Hpat.
    apply (extends_intro _ _ (<[i := state_of (insert p parts (S h) c)]> (children n)) []);
      [done|done|done| |by rewrite app_nil_r].
    apply Forall2_insert_r.
    + apply Forall_Forall2_diag, Forall_forall. intros. apply extends_refl.
    + apply matchChild_Some in Hm as (Hi & _). rewrite Hi. intros ? [= <-]. auto.
  - intros pat h n p w Hp Hm Hw IH Hpat. rewrite state_of_map_state.
    rewrite (stored_pattern_step _ _ _ _ Hp) in Hpat.
    apply (extends_intro _ _ (children n) [state_of (insert p parts (S h) (mkNode "" p [] w))]);
      [done..| |done].
    apply Forall_Forall2_diag, Forall_forall. intros. apply extends_refl.
  - intros. apply extends_refl.
Qed.

(** C9: insert only appends, when it stores a non-empty pattern.
    Whether it returns or panics, an [insert] whose stored pattern
    ([stored_pattern], the route's last segment because of trie.go:49)
    is non-empty leaves an extension of the trie it was given: segments
    and flags unchanged, no child removed or reordered, new children
    appended after the old ones, and registered nodes still registered.
    The condition is needed: a route whose last segment is empty ends
    at a node whose pattern it sets to the empty string (C33), which
    unregisters that node. *)
Theorem insert_extends pat parts t :
  stored_pattern pat parts 0 <> "" -> extends t (state_of (insert pat parts 0 t)).
Proof. apply insert_extends_gen. lia. Qed.

(** ** A panicking insert registers nothing *)

Lemma unregistered_eq n :
  unregistered n = true <->
  pattern n = "" /\ Forall (fun c => unregistered c = true) (children n).
Proof.
  destruct n as [pat pt cs w]. cbn [unregistered pattern children].
  by rewrite andb_true_iff, String.eqb_eq, forallb_Forall.
Qed.

Lemma unregistered_no_match parts h n r :
  matches parts h n r -> unregistered n = true -> False.
Proof.
  induction 1 as [h n _ Hpat|h n p c r _ _ _ Hin _ _ IH];
    intros [Hp Hcs]%unregistered_eq; [done|].
  apply IH. by apply (proj1 (Forall_forall _ _) Hcs).
Qed.

Lemma fresh_ext_refl n : fresh_ext n n.
Proof.
  induction n as [pat pt cs w IH] using node_ind_nested.
  apply (fresh_ext_intro _ _ cs []); [done..| |done|by rewrite app_nil_r].
  induction IH; constructor; auto.
Qed.

Lemma fresh_ext_leaf p w n' : fresh_ext (mkNode "" p [] w) n' -> unregistered n' = true.
Proof.
  inversion 1 as [? ? cs' extra _ _ Hpat Hcs Hextra Hch]; subst.
  apply Forall2_nil_inv_l in Hcs as ->. apply unregistered_eq. rewrite Hch. simpl. done.
Qed.

(** Matches carry over in both directions between a tree and its
    extension by unregistered trees. *)
Lemma fresh_ext_matches parts h n n' r :
  fresh_ext n n' -> matches parts h n' r -> exists r', matches parts h n r'.
Proof.
  intros Hext Hm. revert n Hext.
  induction Hm as [h n' Hstop Hpat|h n' p c' r Hh Hc Hp Hin Hcand Hm IH];
    intros n0 Hfe; inversion Hfe as [? ? cs' extra Hpart Hwild Hpat' Hcs Hextra Hch]; subst.
  - exists n0. constructor; [|by rewrite <- Hpat']. unfold is_catchall in *. by rewrite <- Hpart.
  - rewrite Hch in Hin. apply elem_of_app in Hin as [Hin|Hin].
    + apply list_elem_of_lookup in Hin as [i Hi].
      destruct (Forall2_lookup_r _ _ _ _ _ Hcs Hi) as (c & Hc0 & Hext).
      destruct (IH c Hext) as [r' Hr']. exists r'.
      inversion Hext as [? ? ? ? Hcp Hcw]; subst.
      eapply matches_child; [done| |done|by eapply list_elem_of_lookup_2| |exact Hr'].
      * unfold is_catchall in *. by rewrite <- Hpart.
      * by rewrite <- (is_candidate_same p c c' Hcp Hcw).
    + exfalso. eapply unregistered_no_match; [done|].
      by apply (proj1 (Forall_forall _ _) Hextra).
Qed.

Lemma matches_fresh_ext parts h n n' r :
  fresh_ext n n' -> matches parts h n r -> exists r', matches parts h n' r'.
Proof.
  intros Hext Hm. revert n' Hext.
  induction Hm as [h n Hstop Hpat|h n p c r Hh Hc Hp Hin Hcand Hm IH];
    intros n0 Hfe; inversion Hfe as [? ? cs' extra Hpart Hwild Hpat' Hcs Hextra Hch]; subst.
  - exists n0. constructor; [|by rewrite Hpat']. unfold is_catchall in *. by rewrite Hpart.
  - apply list_elem_of_lookup in Hin as [i Hi].
    destruct (Forall2_lookup_l _ _ _ _ _ Hcs Hi) as (c' & Hc' & Hext).
    destruct (IH c' Hext) as [r' Hr']. exists r'.
    inversion Hext as [? ? ? ? Hcp Hcw]; subst.
    eapply matches_child; [done| |done| |by rewrite (is_candidate_same p c c' Hcp Hcw)|exact Hr'].
    + unfold is_catchall in *. by rewrite Hpart.
    + rewrite Hch. apply elem_of_app. left. by eapply list_elem_of_lookup_2.
Qed.

Lemma insert_panic_fresh pat parts h n n' :
  h <= length parts -> insert pat parts h n = Panicked n' -> fresh_ext n n'.
Proof.
  intros Hle. revert n'. pattern pat, h, n, (insert pat parts h n).
  apply insert_ind; [| | | |done]; clear pat h n Hle.
  - intros pat n n' [=].
  - intros pat h n p i c Hp Hm IH n' (c' & Hc' & ->)%map_state_Panicked.
    apply (fresh_ext_intro _ _ (<[i := c']> (children n)) []); [done..| | |by rewrite app_nil_r].
    + apply Forall2_insert_r.
      * apply Forall_Forall2_diag, Forall_forall. intros. apply fresh_ext_refl.
      * apply matchChild_Some in Hm as (Hi & _). rewrite Hi. intros ? [= <-]. auto.
    + constructor.
  - intros pat h n p w Hp Hm Hw IH n' (c' & Hc' & ->)%map_state_Panicked.
    apply (fresh_ext_intro _ _ (children n) [c']); [done..| | |done].
    + apply Forall_Forall2_diag, Forall_forall. intros. apply fresh_ext_refl.
    + apply Forall_singleton. by eapply fresh_ext_leaf, IH.
  - intros pat h n _ _ n' [= <-]. apply fresh_ext_refl.
Qed.

(** A trie with no registered node answers nothing. *)
Lemma unregistered_search_none t ps : unregistered t = true -> search t ps 0 = None.
Proof.
  intros Hu. destruct (search t ps 0) as [r|] eqn:Hs; [|done].
  exfalso. by eapply unregistered_no_match; [apply search_matches|].
Qed.

(** A panicking insert leaves a trie that routes exactly the paths
    the trie it was given routes. *)
Lemma insert_panic_routes pat parts t t' ps :
  insert pat parts 0 t = Panicked t' ->
  (exists r, matches ps 0 t' r) <-> (exists r, matches ps 0 t r).
Proof.
  intros Hins. pose proof (insert_panic_fresh pat parts 0 t t' ltac:(lia) Hins) as Hext.
  split; intros [r Hr]; [by eapply fresh_ext_matches|by eapply matches_fresh_ext].
Qed.

(** C31: a failed registration registers nothing. When [insert] panics
    (an empty segment at trie.go:45), the nodes it appended stay in the
    trie (C7), but they are all unregistered, so [search] answers a path
    after the panic exactly when it answered it before. *)
Theorem insert_panic_adds_no_route pat parts t t' ps :
  insert pat parts 0 t = Panicked t' ->
  is_Some (search t' ps 0) <-> is_Some (search t ps 0).
Proof.
  intros Hins. pose proof (insert_panic_routes pat parts t t' ps Hins) as Hiff.
  split; intros [r Hr]; apply search_matches in Hr.
  - destruct (proj1 Hiff (ex_intro _ r Hr)) as [r' Hr'].
    destruct (matches_search _ _ _ _ Hr') as [x ->]. by eexists.
  - destruct (proj2 Hiff (ex_intro _ r Hr)) as [r' Hr'].
    destruct (matches_search _ _ _ _ Hr') as [x ->]. by eexists.
Qed.

(** C10: routes stay routable across an insert that stores a
    non-empty pattern. A path that [search] could route before such an
    [insert] is still routed afterwards, whether the insert returned or
    panicked. Without the condition this fails: a route with an empty
    last segment can unregister the node another route ends at (C33,
    C34). *)
Theorem insert_preserves_routes pat parts t ps r :
  matches ps 0 t r -> stored_pattern pat parts 0 <> "" ->
  exists r', search (state_of (insert pat parts 0 t)) ps 0 = Some r'.
Proof.
  intros Hm Hpat. destruct (extends_matches _ _ _ _ _ Hm (insert_extends_gen pat parts 0 t
    ltac:(lia) Hpat)) as [r' Hr']. by eapply matches_search.
Qed.

(** ** Witnesses *)

Lemma insert_search_instance_witness :
  exists r, search (state_of (insert "/u/:id" ["u"; ":id"] 0 demo_trie)) ["u"; "42"] 0 = Some r.
Proof.
  apply (insert_search_instance "/u/:id" ["u"; ":id"] _ demo_trie); try reflexivity.
  - discriminate.
  - constructor; [by left|]. constructor; [by right|]. constructor.
Defined.

Lemma insert_keeps_route_length_witness :
  routes_at 0 2 (state_of (insert "/q/:id" ["q"; ":id"] 0
    (state_of (insert "/p/:id" ["p"; ":id"] 0 root)))) = true.
Proof. apply (insert_keeps_route_length "/q/:id" ["q"; ":id"]). reflexivity. Defined.

Lemma search_wrong_length_no_match_witness :
  search (state_of (insert "/p/:id" ["p"; ":id"] 0 root)) ["p"] 0 = None.
Proof. apply (search_wrong_length_no_match _ _ 2); [reflexivity|reflexivity|simpl; lia]. Defined.

(** [/p/q//r] on the demo trie: [q] is appended below [p], then the
    empty segment panics. *)
Lemma insert_panic_adds_no_route_witness :
  is_Some (search (state_of (insert "/p/q//r" ["p"; "q"; ""; "r"] 0 demo_trie))
    ["p"; "q"; "z"] 0) <-> is_Some (search demo_trie ["p"; "q"; "z"] 0).
Proof. apply (insert_panic_adds_no_route "/p/q//r" ["p"; "q"; ""; "r"]). reflexivity. Defined.

(** [/:x], then a route with the single empty segment: the [:x] node
    is reached and its pattern cleared. *)
Lemma insert_sets_terminal_witness :
  exists r, descend (state_of (insert "/" [""] 0
      (state_of (insert "/:x" [":x"] 0 root)))) [""] = Some r /\
    pattern r = stored_pattern "/" [""] 0.
Proof. apply (insert_sets_terminal "/" [""] (state_of (insert "/:x" [":x"] 0 root))). reflexivity. Defined.

Lemma too_long_path_no_match_witness :
  search demo_trie ["p"; "x"; "y"; "z"] 0 = None.
Proof. apply too_long_path_no_match; [reflexivity|simpl; lia]. Defined.


Lemma demo_matches :
  matches ["p"; "x"; "z"] 0 demo_trie (mkNode "z" "z" [] false).
Proof.
  vm_compute.
  eapply (matches_child _ _ _ "p"); [done|done|done|by left|done|].
  eapply (matches_child _ _ _ "x"); [done|done|done|by right; left|done|].
  eapply (matches_child _ _ _ "z"); [done|done|done|by left|done|].
  by apply matches_stop; [left|].
Qed.

Lemma search_sound_witness :
  matches ["p"; "x"; "z"] 0 demo_trie (mkNode "z" "z" [] false).
Proof. apply search_sound. reflexivity. Defined.

Lemma search_complete_witness :
  exists r, search demo_trie ["p"; "x"; "z"] 0 = Some r.
Proof. apply (search_complete _ _ _ _ demo_matches). Defined.

Lemma insert_search_roundtrip_witness :
  exists r, search demo_trie ["p"; ":id"; "z"] 0 = Some r /\
    pattern r = stored_pattern "/p/:id/z" ["p"; ":id"; "z"] 0.
Proof.
  apply (insert_search_roundtrip _ _ (state_of (insert "/p/x/y" ["p"; "x"; "y"] 0 root)));
    [reflexivity|reflexivity|vm_compute; discriminate].
Defined.

Lemma insert_preserves_wf_witness :
  wf_trie (state_of (insert "/a//b" ["a"; ""; "b"] 0 demo_trie)) = true.
Proof. apply insert_preserves_wf. reflexivity. Defined.

Lemma insert_extends_witness :
  extends demo_trie (state_of (insert "/q" ["q"] 0 demo_trie)).
Proof. apply insert_extends. vm_compute. discriminate. Defined.

Lemma insert_preserves_routes_witness :
  exists r, search (state_of (insert "/p/x" ["p"; "x"] 0 demo_trie)) ["p"; "x"; "z"] 0 = Some r.
Proof.
  apply (insert_preserves_routes _ _ _ _ _ demo_matches). vm_compute. discriminate.
Defined.

End TrieSpec.
