(* ===== verification/Experiment.v ===== *)
(** * The abandoned prototype of src/experiment/mytrie.go

    The prototype keeps a global [rootNode] whose children sit in a Go
    map [next map[string]*node]. It splits a path with [strings.Split]
    and walks or extends the map chain. Module [Experiment] models it
    with the Go heap made explicit.
    - A pointer is an [option loc]; [None] is [nil].
    - The heap is a [gmap] from locations to nodes, with a counter for
      fresh locations.
    - A node's [next] is [None] for a nil map. The struct literal
      [&node{value: v}] leaves it nil, and so does the global
      [rootNode].
    - Reading a nil map yields the zero value. Writing to a nil map
      panics, and so does dereferencing [nil]. Both are [Panicked] in the
      monad [M heap] of [Prelude].
    The theorems show that the prototype can do nothing: every [insert]
    panics before it changes the root, every [match'] panics, and the
    root is the same in every state reachable from the initial one. *)

From stdpp Require Import base list strings gmap.
From Stdlib Require Import Ascii.
From S2P Require Import Prelude.

Module Experiment.

(** ** Data *)

Abbreviation loc := nat (only parsing).
Abbreviation ptr := (option loc) (only parsing).

(** [type node struct { value string; next map[string]*node }]
    (mytrie.go:5-8); [next = None] is a nil map. *)
Record node : Type := mkNode {
  value : string;
  next : option (gmap string ptr)
}.

Record heap : Type := mkHeap {
  nodes : gmap loc node;
  fresh : loc
}.

(** [var rootNode = &node{value: "/"}] (mytrie.go:10-12): the root
    lives at location 0, with a nil [next] map. *)
Definition rootNode : ptr := Some 0.

Definition init_heap : heap := mkHeap {[0 := mkNode "/" None]} 1.

(** ** Go's runtime operations *)

(** [strings.Split(s, "/")]: the pieces between separators, always at
    least one (the empty string splits into [[""]]). *)
Fixpoint split_go (s cur : string) : list string :=
  match s with
  | EmptyString => [cur]
  | String c s' =>
      if Ascii.eqb c "/"%char then cur :: split_go s' ""
      else split_go s' (cur +:+ String c "")
  end.

Definition split (s : string) : list string := split_go s "".

(** [*p]: dereferencing [nil] panics. *)
Definition load (p : ptr) : M heap node :=
  fun h =>
    match p with
    | None => Panicked h
    | Some l => match nodes h !! l with
                | Some n => Returned h n
                | None => Panicked h
                end
    end.

(** [&node{...}]: a fresh location. *)
Definition alloc (n : node) : M heap ptr :=
  fun h => Returned (mkHeap (<[fresh h := n]> (nodes h)) (S (fresh h))) (Some (fresh h)).

(** [v, ok := m[k]] on a possibly nil map: the zero value [nil] and
    [false] when absent. *)
Definition map_get (m : option (gmap string ptr)) (k : string) : ptr * bool :=
  match m ≫= lookup k with
  | Some v => (v, true)
  | None => (None, false)
  end.

(** [p.next[k] = x]: panics on a nil map. *)
Definition map_assign (p : ptr) (k : string) (x : ptr) : M heap unit :=
  pn <- load p ;;
  match p, next pn with
  | Some l, Some m =>
      modify (fun h => mkHeap (<[l := mkNode (value pn) (Some (<[k := x]> m))]> (nodes h))
                         (fresh h))
  | _, _ => panic
  end.

(** ** The two functions *)

(** One iteration of the loop of [insert] (mytrie.go:18-31):
    - if [v] is absent from [p.next], rename a [:]-segment to [":"],
      allocate a node and store it under the (renamed) key;
    - then step to [p.next[v]]. *)
Fixpoint insert_loop (routeBlock : list string) (p : ptr) : M heap unit :=
  match routeBlock with
  | [] => ret tt
  | v :: rest =>
      pn <- load p ;;
      v' <- (if snd (map_get (next pn) v) then ret v
             else
               let v' := if String.prefix ":" v then ":" else v in
               c <- alloc (mkNode v' None) ;;
               map_assign p v' c ;;; ret v') ;;
      pn' <- load p ;;
      insert_loop rest (fst (map_get (next pn') v'))
  end.

(** [insert] (mytrie.go:14-32). *)
Definition insert (path : string) : M heap unit :=
  insert_loop (split path) rootNode.

(** The loop of [match] (mytrie.go:38-47). When the segment is absent,
    [nextNode] is [nil] and [nextNode.value] dereferences it. *)
Fixpoint match_loop (routeBlock : list string) (p : ptr) : M heap ptr :=
  match routeBlock with
  | [] => ret p
  | part :: rest =>
      pn <- load p ;;
      let (nextNode, ok) := map_get (next pn) part in
      if ok then match_loop rest nextNode
      else nn <- load nextNode ;; ret None
  end.

(** [match] (mytrie.go:34-49); [match] is a keyword here. *)
Definition match' (path : string) : M heap ptr :=
  match_loop (split path) rootNode.

(** ** The prototype as a state machine *)

(** A call of either function, its panic recovered: the heap it leaves
    is the next state. *)
Inductive step : heap -> heap -> Prop :=
| step_insert path h : step h (state_of (insert path h))
| step_match path h : step h (state_of (match' path h)).

(** The root is the global's initial node, and no allocation can land on
    it. *)
Definition root_intact (h : heap) : Prop :=
  nodes h !! 0 = Some (mkNode "/" None) /\ 0 < fresh h.

(** ** strings.Split *)

Lemma split_go_ne s cur : split_go s cur <> [].
Proof.
  revert cur. induction s as [|c s IH]; intros cur; simpl; [done|].
  destruct (Ascii.eqb c "/"%char); [done|apply IH].
Qed.

Lemma concat_split_go s cur :
  String.concat "/" (split_go s cur) = (cur +:+ s)%string.
Proof.
  revert cur. induction s as [|c s IH]; intros cur; simpl.
  - by rewrite string_app_nil_r.
  - destruct (Ascii.eqb_spec c "/"%char) as [->|Hc].
    + destruct (split_go s "") as [|x l] eqn:E; [by destruct (split_go_ne s "")|].
      change (String.concat "/" (cur :: x :: l))
        with (cur +:+ ("/" +:+ String.concat "/" (x :: l)))%string.
      rewrite <- E, IH. reflexivity.
    + rewrite IH, <- string_app_assoc. done.
Qed.

(** ** Every call panics *)

Lemma load_root h : root_intact h -> load rootNode h = Returned h (mkNode "/" None).
Proof. intros [Hr _]. unfold load, rootNode. simpl. by rewrite Hr. Qed.

(** The first iteration of [insert] allocates the node for the first
    segment. Then it panics when it stores that node into the root's nil
    map. *)
Lemma insert_loop_root v rest h :
  root_intact h ->
  exists h', insert_loop (v :: rest) rootNode h = Panicked h' /\ root_intact h'.
Proof.
  intros Hh. pose proof Hh as [Hr Hf]. simpl. unfold bind at 1. rewrite load_root by done.
  simpl. unfold bind, alloc, map_assign, bind, load, rootNode. simpl.
  rewrite lookup_insert_ne by lia. rewrite Hr. simpl.
  eexists. split; [reflexivity|]. split; simpl; [|lia].
  by rewrite lookup_insert_ne by lia.
Qed.

Lemma insert_loop_root_any path h :
  root_intact h -> exists h', insert path h = Panicked h' /\ root_intact h'.
Proof.
  intros Hh. unfold insert. pose proof (split_go_ne path "") as Hne. fold (split path) in Hne.
  destruct (split path) as [|v rest]; [done|]. by apply insert_loop_root.
Qed.

Lemma match_loop_root_any path h : root_intact h -> match' path h = Panicked h.
Proof.
  intros Hh. unfold match'. pose proof (split_go_ne path "") as Hne. fold (split path) in Hne.
  destruct (split path) as [|part rest]; [done|].
  simpl. unfold bind, load, rootNode. simpl. by rewrite (proj1 Hh).
Qed.

Lemma root_intact_init : root_intact init_heap.
Proof. split; [done|]. simpl. lia. Qed.

(** C15: insert always panics. From any state whose root is the
    initial [rootNode], [insert] panics at the first segment and leaves
    the root unchanged. The root's map is nil (mytrie.go:10-12), and
    mytrie.go:26 writes into it. *)
Theorem insert_always_panics path h :
  root_intact h -> exists h', insert path h = Panicked h' /\ root_intact h'.
Proof. apply insert_loop_root_any. Qed.

(** C16: match always panics. From any state whose root is the
    initial [rootNode], [match'] panics at the first segment. The
    lookup in the nil map fails, and mytrie.go:41 dereferences the nil
    [nextNode] before returning. *)
Theorem match_always_panics path h :
  root_intact h -> match' path h = Panicked h.
Proof. apply match_loop_root_any. Qed.

Lemma step_root_intact h h' : step h h' -> root_intact h -> root_intact h'.
Proof.
  intros Hs Hh. destruct Hs as [path h|path h].
  - destruct (insert_loop_root_any path h Hh) as (h'' & -> & ?). done.
  - by rewrite match_loop_root_any.
Qed.

Lemma rtc_root_intact h1 h2 : rtc step h1 h2 -> root_intact h1 -> root_intact h2.
Proof. induction 1; eauto using step_root_intact. Qed.

(** C17: the prototype never routes. In every state reachable from the
    initial heap, by any sequence of [insert] and [match'] calls with
    their panics recovered, the root is unchanged and every [match']
    panics. *)
Theorem reachable_never_routes h path :
  rtc step init_heap h -> root_intact h /\ match' path h = Panicked h.
Proof.
  intros Hreach. assert (root_intact h) as Hh.
  { apply (rtc_root_intact _ _ Hreach), root_intact_init. }
  split; [done|]. by apply match_loop_root_any.
Qed.

(** ** Witnesses *)

Lemma insert_always_panics_witness :
  exists h', insert "/users/:id" init_heap = Panicked h' /\ root_intact h'.
Proof. apply insert_always_panics. apply root_intact_init. Defined.

Lemma match_always_panics_witness : match' "/users/42" init_heap = Panicked init_heap.
Proof. apply match_always_panics. apply root_intact_init. Defined.

Lemma reachable_never_routes_witness :
  root_intact (state_of (insert "/a" init_heap)) /\
  match' "/a" (state_of (insert "/a" init_heap)) = Panicked (state_of (insert "/a" init_heap)).
Proof.
  apply reachable_never_routes. apply rtc_once. apply step_insert.
Defined.

End Experiment.
