(* ===== verification/Router.v ===== *)
(** * The Router of the spec, over an interface the trie implements

    The Router is not in src/. Spec sections 2, 4.1 and 6 describe it:
    it owns one route trie per HTTP method, splits a pattern or a path
    on ['/'] and skips the first piece when it is empty, and pairs the
    dynamic segments of the matched node's pattern with the request's
    segments. This file models it from those words (spec-modelled in
    the manifest).
    - [RouteTrie] is what a router needs of a trie: an empty trie,
      [insert] (which may panic) and [search] (which returns the stored
      pattern). [RouteTrieLaws] is what the trie promises about them,
      stated with predicates of its own: abstract routing [rt_routes],
      and the conditions [rt_valid] and [rt_clear] under which an insert
      keeps routes and makes its own route routable.
    - [trie_route_trie] and [trie_route_laws] instantiate both classes
      with [Trie.node]. The laws are discharged by [TrieSpec].
    - Section [router] holds the router, generic in the trie: the
      per-method map [roots], [addRoute], [getRoute], the parameter
      extraction [params_of], and the registration phase [register]
      (spec section 5: every insert happens before any search), a list
      of registrations of any patterns.
    The router lemmas are proved from the laws alone. The claims state
    them at trie.go's [node]: the router answers exactly the routable
    requests (C20); a registered route is served (C21), and an
    answered request stays answered (C22), across later registrations
    that store non-empty patterns; a panicking [addRoute] changes no
    answer (C32). The last theorems show what the C5 finding does
    through the router: a parameter is bound to the wrong segment
    (C23, C29), the path [/] matches [/:x] (C24), and [/] registered
    after [/:x] erases it (C34). *)

From stdpp Require Import base list strings gmap.
From Stdlib Require Import Ascii.
From S2P Require Import Prelude Trie TrieSpec Experiment.


Module Router.

(** ** The interface between a router and its tries *)

Class RouteTrie (T : Type) := {
  rt_empty : T;
  rt_insert : string -> list string -> M T unit;
  rt_search : T -> list string -> option string
}.

Class RouteTrieLaws (T : Type) `{!RouteTrie T} := {
  rt_routes : T -> list string -> Prop;
  rt_valid : string -> list string -> Prop;
  rt_clear : T -> list string -> Prop;
  rt_search_sound t ps q : rt_search t ps = Some q -> rt_routes t ps /\ q <> "";
  rt_search_complete t ps : rt_routes t ps -> is_Some (rt_search t ps);
  rt_insert_keeps t pat parts ps :
    rt_valid pat parts -> rt_routes t ps -> rt_routes (state_of (rt_insert pat parts t)) ps;
  rt_insert_found t t' pat parts :
    rt_insert pat parts t = Returned t' tt -> rt_valid pat parts -> rt_clear t parts ->
    rt_routes t' parts;
  rt_empty_routes ps : ~ rt_routes rt_empty ps;
  rt_insert_panic t t' pat parts ps :
    rt_insert pat parts t = Panicked t' -> rt_routes t' ps <-> rt_routes t ps
}.

(** ** The trie of trie.go implements the interface *)

(** A router allocates its tries with [&node{}], inserts from height 0
    and reads the pattern of the node [search] returns. *)
#[export] Instance trie_route_trie : RouteTrie Trie.node := {|
  rt_empty := Trie.root;
  rt_insert pat parts := Trie.insert pat parts 0;
  rt_search t ps := Trie.pattern <$> Trie.search t ps 0
|}.

#[export] Instance trie_route_laws : RouteTrieLaws Trie.node.
Proof.
  refine {|
    rt_routes t ps := exists r, TrieSpec.matches ps 0 t r;
    rt_valid pat parts := TrieSpec.stored_pattern pat parts 0 <> "";
    rt_clear t parts := TrieSpec.path_clear t parts 0 = true
  |}; simpl.
  - intros t ps q [r [Hs ->]]%fmap_Some. apply TrieSpec.search_matches in Hs.
    split; [by exists r|]. by eapply TrieSpec.matches_registered.
  - intros t ps [r Hm]. destruct (TrieSpec.matches_search _ _ _ _ Hm) as [r' ->]. done.
  - intros t pat parts ps Hv [r Hm].
    exact (TrieSpec.extends_matches _ _ _ _ _ Hm
      (TrieSpec.insert_extends_gen pat parts 0 t ltac:(lia) Hv)).
  - intros t t' pat parts Hins Hv Hc.
    destruct (TrieSpec.insert_search_found _ _ _ _ Hins Hc Hv) as (r & Hs & _).
    exists r. by apply TrieSpec.search_matches.
  - intros ps [r Hm]. inversion Hm as [? ? _ Hpat|? ? ? ? ? _ _ _ Hin]; [done|].
    by apply elem_of_nil in Hin.
  - intros t t' pat parts ps. apply TrieSpec.insert_panic_routes.
Defined.

(** ** The router *)

(** Spec 4.1: split on ['/'], and skip the first piece when it is
    empty, as it is for a pattern or path with a leading slash. *)
Definition split_path (s : string) : list string :=
  match Experiment.split s with
  | EmptyString :: rest => rest
  | l => l
  end.

(** Spec 6 and the glossary: walk the matched pattern's segments beside
    the request's. A segment [:name] captures one request segment; a
    segment [*name] captures the rest of the path, joined with ['/'],
    and ends the walk. A later capture of the same name overwrites an
    earlier one. *)
Fixpoint params_go (pat parts : list string) (acc : gmap string string)
    : gmap string string :=
  match pat, parts with
  | seg :: pat', p :: parts' =>
      match seg with
      | String c name =>
          if Ascii.eqb c ":"%char then params_go pat' parts' (<[name := p]> acc)
          else if Ascii.eqb c "*"%char then <[name := String.concat "/" parts]> acc
          else params_go pat' parts' acc
      | EmptyString => params_go pat' parts' acc
      end
  | _, _ => acc
  end.

Definition params_of (pat parts : list string) : gmap string string :=
  params_go pat parts ∅.

Section router.
Context {T : Type} `{!RouteTrie T}.

(** One trie per HTTP method. *)
Record router := mkRouter { roots : gmap string T }.

Definition empty_router : router := mkRouter ∅.

(** Register [pattern] for [method]: the method's trie, allocated empty
    on first use, receives the insert. Its state is written back on
    both exits, since the trie is held by pointer. *)
Definition addRoute (method pattern : string) : M router unit :=
  fun r =>
    map_state (fun t => mkRouter (<[method := t]> (roots r)))
      (rt_insert pattern (split_path pattern) (default rt_empty (roots r !! method))).

(** Resolve [path] for [method]: no trie or no match is "not found";
    otherwise the stored pattern and the captured parameters. *)
Definition getRoute (r : router) (method path : string)
    : option (string * gmap string string) :=
  match roots r !! method with
  | None => None
  | Some t =>
      let parts := split_path path in
      match rt_search t parts with
      | None => None
      | Some pat => Some (pat, params_of (split_path pat) parts)
      end
  end.

(** The registration phase (spec 5): the routes registered one after
    the other, each by [addRoute], whatever its pattern. A panic is
    recovered, and the router keeps the state the panic left. *)
Fixpoint register (rs : list (string * string)) (r : router) : router :=
  match rs with
  | [] => r
  | (method, pattern) :: rs' => register rs' (state_of (addRoute method pattern r))
  end.

End router.

Arguments router T : clear implicits.

Section registration.
Context {T : Type} `{!RouteTrie T, !RouteTrieLaws T}.

(** ** The router, from the trie's laws alone *)

Lemma addRoute_roots r method pattern :
  roots (state_of (addRoute method pattern r)) =
  <[method := state_of (rt_insert pattern (split_path pattern)
                (default rt_empty (roots r !! method)))]> (roots r).
Proof. unfold addRoute. by rewrite state_of_map_state. Qed.

Lemma getRoute_routes r method path :
  is_Some (getRoute r method path) <->
  exists t, roots r !! method = Some t /\ rt_routes t (split_path path).
Proof.
  unfold getRoute. destruct (roots r !! method) as [t|]; [|split; [by intros []|by intros (? & ? & _)]].
  split.
  - destruct (rt_search t (split_path path)) as [q|] eqn:Hs; [|by intros []].
    intros _. exists t. split; [done|]. by apply (rt_search_sound _ _ q).
  - intros (t' & [= <-] & Hr). destruct (rt_search_complete _ _ Hr) as [q ->]. by eexists.
Qed.

Lemma getRoute_Some r method path pat params :
  getRoute r method path = Some (pat, params) ->
  pat <> "" /\ params = params_of (split_path pat) (split_path path).
Proof.
  unfold getRoute. destruct (roots r !! method) as [t|]; [|done].
  destruct (rt_search t (split_path path)) as [q|] eqn:Hs; [|done]. intros [= <- <-].
  split; [|done]. by apply rt_search_sound in Hs as [_ ?].
Qed.

(** A registration that stores a non-empty pattern keeps every
    answered request answered. *)
Lemma addRoute_keeps_routes r method pattern m path :
  rt_valid pattern (split_path pattern) ->
  is_Some (getRoute r m path) ->
  is_Some (getRoute (state_of (addRoute method pattern r)) m path).
Proof.
  intros Hv. rewrite !getRoute_routes, addRoute_roots. intros (t & Ht & Hr).
  destruct (decide (method = m)) as [->|Hne].
  - rewrite lookup_insert_eq, Ht. simpl. eexists. split; [done|]. by apply rt_insert_keeps.
  - rewrite lookup_insert_ne by done. eauto.
Qed.

Lemma register_keeps_routes rs r m path :
  Forall (fun mp => rt_valid mp.2 (split_path mp.2)) rs ->
  is_Some (getRoute r m path) -> is_Some (getRoute (register rs r) m path).
Proof.
  revert r. induction rs as [|[method pattern] rs IH]; intros r Hrs Hr; [done|].
  apply Forall_cons in Hrs as [Hv Hrs]. simpl. by apply IH, addRoute_keeps_routes.
Qed.

(** A registration that panics changes no answer of the router, for
    any method: the method's trie routes what it routed before, and a
    trie allocated for it routes nothing. *)
Lemma addRoute_panic_gen r r' method pattern m path :
  addRoute method pattern r = Panicked r' ->
  is_Some (getRoute r' m path) <-> is_Some (getRoute r m path).
Proof.
  unfold addRoute at 1. intros (t' & Ht' & ->)%map_state_Panicked.
  rewrite !getRoute_routes. simpl. destruct (decide (m = method)) as [->|Hne].
  - rewrite lookup_insert_eq. destruct (roots r !! method) as [t|]; simpl in Ht'.
    + split; intros (t0 & [= <-] & Hr); eexists; (split; [done|]);
        by apply (rt_insert_panic _ _ _ _ _ Ht').
    + split; intros (t0 & Heq & Hr); [|done]. injection Heq as <-.
      destruct (rt_empty_routes (split_path path)). by apply (rt_insert_panic _ _ _ _ _ Ht').
  - by rewrite lookup_insert_ne.
Qed.

(** A route the trie accepts, inserted without a panic and not through
    a catch-all, is answered after any later registrations that store
    non-empty patterns. *)
Lemma route_served_gen r r1 method pattern rs :
  addRoute method pattern r = Returned r1 tt ->
  rt_valid pattern (split_path pattern) ->
  rt_clear (default rt_empty (roots r !! method)) (split_path pattern) ->
  Forall (fun mp => rt_valid mp.2 (split_path mp.2)) rs ->
  is_Some (getRoute (register rs r1) method pattern).
Proof.
  intros Hadd Hv Hc Hrs. apply register_keeps_routes; [done|].
  unfold addRoute in Hadd. apply map_state_Returned in Hadd as (t1 & Ht1 & ->).
  apply getRoute_routes. exists t1. simpl. rewrite lookup_insert_eq.
  split; [done|]. by eapply rt_insert_found.
Qed.

End registration.

(** ** The router over the trie of trie.go *)

(** The claims below are the generic results at trie.go's [node]:
    [rt_routes] is [TrieSpec.matches], [rt_valid] a non-empty stored
    pattern, and [rt_clear] [TrieSpec.path_clear]. *)

(** C20: the router answers exactly the routable requests. [getRoute]
    finds a route for a method and a path if and only if the method has
    a trie in which the path's segments match a registered node. What
    it returns is a non-empty pattern, with the parameters paired from
    that pattern's segments and the path's. *)
Theorem getRoute_spec (r : router Trie.node) method path :
  (is_Some (getRoute r method path) <->
     exists t, roots r !! method = Some t /\
       exists n, TrieSpec.matches (split_path path) 0 t n) /\
  (forall pat params, getRoute r method path = Some (pat, params) ->
     pat <> "" /\ params = params_of (split_path pat) (split_path path)).
Proof. exact (conj (getRoute_routes r method path) (getRoute_Some r method path)). Qed.

(** C21: a registered route is served from then on, while later
    routes store non-empty patterns. If [addRoute] inserts a pattern
    into the method's trie without panicking, the pattern it stores is
    non-empty, and the route does not run through a catch-all, then a
    request for that pattern's path is answered right away and after
    any later registrations, of any methods, that each store a
    non-empty pattern (a non-empty last segment). The condition on the
    later registrations is needed: [/] registered after [/:x] erases it
    (C34). *)
Theorem registered_route_served (r r1 : router Trie.node) method pattern rs :
  addRoute method pattern r = Returned r1 tt ->
  TrieSpec.stored_pattern pattern (split_path pattern) 0 <> "" ->
  TrieSpec.path_clear (default Trie.root (roots r !! method)) (split_path pattern) 0 = true ->
  Forall (fun mp => TrieSpec.stored_pattern mp.2 (split_path mp.2) 0 <> "") rs ->
  is_Some (getRoute (register rs r1) method pattern).
Proof. exact (route_served_gen r r1 method pattern rs). Qed.

(** C22: answered requests stay answered across registrations that
    store non-empty patterns. A request the router answers is still
    answered after any sequence of registrations, of any methods and
    panicking or not, each of which stores a non-empty pattern. Without
    that condition a request can be lost (C34). *)
Theorem routes_stay_routed (r : router Trie.node) rs method path :
  Forall (fun mp => TrieSpec.stored_pattern mp.2 (split_path mp.2) 0 <> "") rs ->
  is_Some (getRoute r method path) -> is_Some (getRoute (register rs r) method path).
Proof. exact (register_keeps_routes rs r method path). Qed.

Lemma split_go_app_slash s1 s2 cur :
  Experiment.split_go (s1 +:+ String "/" s2) cur =
  Experiment.split_go s1 cur ++ Experiment.split_go s2 "".
Proof.
  revert cur. induction s1 as [|c s1 IH]; intros cur; [done|].
  change (String c s1 +:+ String "/" s2)%string with (String c (s1 +:+ String "/" s2))%string.
  simpl. destruct (Ascii.eqb c "/"); simpl; rewrite IH; done.
Qed.

(** The pieces of a split with a non-empty current piece. *)
Lemma split_go_cur s cur :
  Experiment.split_go s cur =
  match Experiment.split_go s "" with h :: t => (cur +:+ h)%string :: t | [] => [] end.
Proof.
  revert cur. induction s as [|c s IH]; intros cur; simpl.
  - by rewrite string_app_nil_r.
  - destruct (Ascii.eqb c "/"); [by rewrite string_app_nil_r|].
    rewrite (IH (cur +:+ _)%string), (IH ("" +:+ _)%string).
    destruct (Experiment.split_go s ""); [done|]. by rewrite string_app_assoc.
Qed.

Lemma split_single_segment s cur :
  Experiment.split s = [s] -> Experiment.split_go s cur = [(cur +:+ s)%string].
Proof. intros H. rewrite split_go_cur. unfold Experiment.split in H. by rewrite H. Qed.

Lemma split_path_route a b :
  Experiment.split a = [a] -> Experiment.split b = [b] ->
  split_path ("/" +:+ a +:+ "/" +:+ b) = [a; b].
Proof.
  intros Ha Hb. unfold split_path, Experiment.split.
  change ("/" +:+ a +:+ "/" +:+ b)%string with (String "/" (a +:+ String "/" b))%string.
  simpl. rewrite split_go_app_slash. unfold Experiment.split in Ha, Hb. by rewrite Ha, Hb.
Qed.

(** A segment behind a sigil that is not ['/'] is still one segment. *)
Lemma split_sigil c s :
  Ascii.eqb c "/" = false -> Experiment.split s = [s] ->
  Experiment.split (String c s) = [String c s].
Proof.
  intros Hc H. unfold Experiment.split. simpl. rewrite Hc. by apply split_single_segment.
Qed.

Lemma split_colon s :
  Experiment.split s = [s] -> Experiment.split (String ":" s) = [String ":" s].
Proof. by apply split_sigil. Qed.

(** Joining a segment and the pieces of [rest] gives [a/rest] back. *)
Lemma concat_cons_split a rest :
  String.concat "/" (a :: Experiment.split rest) = (a +:+ "/" +:+ rest)%string.
Proof.
  pose proof (Experiment.concat_split_go rest "") as H.
  pose proof (Experiment.split_go_ne rest "") as Hne. unfold Experiment.split.
  destruct (Experiment.split_go rest "") as [|x l]; [done|].
  change (String.concat "/" (a :: x :: l))
    with (a +:+ ("/" +:+ String.concat "/" (x :: l)))%string.
  by rewrite H.
Qed.

Lemma insert_two_fresh pat a b wa wb :
  Trie.wild_of a = Some wa -> Trie.wild_of b = Some wb ->
  Trie.insert pat [a; b] 0 Trie.root =
  Returned (Trie.mkNode "" "" [Trie.mkNode "" a [Trie.mkNode b b [] wb] wa] false) tt.
Proof. intros Ha Hb. unfold Trie.insert. simpl. by rewrite Ha, Hb. Qed.

(** C32: a failed registration changes no answer. If [addRoute] panics
    (an empty segment in the pattern), every request, of every method,
    is answered by the router it leaves exactly when it was answered
    before, even though the partial nodes stay in the trie and a trie
    may have been allocated for the method. *)
Theorem addRoute_panic_changes_nothing (r r' : router Trie.node) method pattern m path :
  addRoute method pattern r = Panicked r' ->
  is_Some (getRoute r' m path) <-> is_Some (getRoute r m path).
Proof. exact (addRoute_panic_gen r r' method pattern m path). Qed.

(** C23: the parameter captures the wrong segment. Register
    [/a/:x] for a literal segment [a] on a fresh router, then request
    [/a/v]. The route is found, but the parameter [x] is bound to [a],
    not to [v]. The node reached stores [:x] instead of [/a/:x]
    (trie.go:49, C5), so re-splitting its pattern lines [:x] up with the
    first segment of the path. Spec section 6 expects [x] bound to [v]. *)
Theorem param_captures_prefix method a x v :
  Experiment.split a = [a] -> Experiment.split x = [x] -> Experiment.split v = [v] ->
  Trie.wild_of a = Some false ->
  getRoute (state_of (addRoute method ("/" +:+ a +:+ "/:" +:+ x) empty_router)) method
    ("/" +:+ a +:+ "/" +:+ v) = Some (String ":" x, {[x := a]}).
Proof.
  intros Ha Hx Hv Hw. unfold addRoute, getRoute. rewrite state_of_map_state.
  change ("/" +:+ a +:+ "/:" +:+ x)%string with ("/" +:+ a +:+ "/" +:+ String ":" x)%string.
  rewrite (split_path_route a (String ":" x)), split_path_route by auto using split_colon.
  cbn [roots empty_router]. rewrite lookup_insert_eq, lookup_empty. simpl default.
  cbn [rt_insert rt_search trie_route_trie rt_empty].
  rewrite (insert_two_fresh _ a (String ":" x) false true) by done. simpl state_of.
  unfold Trie.search. simpl. unfold Trie.matchChildren. simpl Trie.children.
  rewrite filter_cons_True by (unfold Trie.is_candidate; by rewrite String.eqb_refl).
  simpl. rewrite Trie.not_catchall_of_literal by done.
  rewrite filter_cons_True by (unfold Trie.is_candidate; by rewrite orb_true_r).
  simpl. unfold split_path. rewrite split_colon by done. reflexivity.
Qed.

(** C29: a catch-all parameter captures the whole path. Register
    [/a/*f] for a literal segment [a] on a fresh router, then request
    [/a/rest] for any [rest]. The request is routed to the catch-all
    node, whose stored pattern is [*f] instead of [/a/*f] (trie.go:49).
    Re-splitting that pattern lines [*f] up with the first segment, so
    [f] is bound to [a/rest] instead of [rest]. *)
Theorem catchall_param_captures_path method a f rest :
  Experiment.split a = [a] -> Experiment.split f = [f] -> Trie.wild_of a = Some false ->
  getRoute (state_of (addRoute method ("/" +:+ a +:+ "/*" +:+ f) empty_router)) method
    ("/" +:+ a +:+ "/" +:+ rest) = Some (String "*" f, {[f := (a +:+ "/" +:+ rest)%string]}).
Proof.
  intros Ha Hf Hw. unfold addRoute, getRoute. rewrite state_of_map_state.
  change ("/" +:+ a +:+ "/*" +:+ f)%string with ("/" +:+ a +:+ "/" +:+ String "*" f)%string.
  rewrite (split_path_route a (String "*" f)) by (done || by apply split_sigil).
  assert (split_path ("/" +:+ a +:+ "/" +:+ rest) = a :: Experiment.split rest) as ->.
  { unfold split_path, Experiment.split.
    change ("/" +:+ a +:+ "/" +:+ rest)%string with (String "/" (a +:+ String "/" rest))%string.
    simpl. rewrite split_go_app_slash. unfold Experiment.split in Ha. by rewrite Ha. }
  cbn [roots empty_router]. rewrite lookup_insert_eq, lookup_empty. simpl default.
  cbn [rt_insert rt_search trie_route_trie rt_empty].
  rewrite (insert_two_fresh _ a (String "*" f) false true) by done. simpl state_of.
  rewrite (Trie.search_step _ _ _ a) by done. unfold Trie.matchChildren at 1. simpl.
  rewrite filter_cons_True by (unfold Trie.is_candidate; by rewrite String.eqb_refl).
  pose proof (Experiment.split_go_ne rest "") as Hne.
  destruct (Experiment.split rest) as [|r1 rs] eqn:Hr; [done|]. cbn [first_some].
  rewrite (Trie.search_step _ _ _ r1) by (done || by apply Trie.not_catchall_of_literal).
  rewrite Trie.matchChildren_all_wild by (repeat constructor). cbn [first_some Trie.children].
  rewrite Trie.search_stop by (right; by eapply Trie.catchall_of_star). simpl.
  unfold split_path. rewrite split_sigil by done. simpl.
  change (params_of [String "*" f] (a :: r1 :: rs))
    with (<[f := String.concat "/" (a :: r1 :: rs)]> (∅ : gmap string string)).
  rewrite <- Hr, concat_cons_split. reflexivity.
Qed.

(** C24: a path of one slash reaches a parameter route. Register
    [/:x] on a fresh router. The path [/] splits into one empty
    segment, which the wild node accepts, so the request is answered
    with [x] bound to the empty string. Spec section 4.2 says a path
    with only ['/'] resolves to "no match". *)
Theorem slash_path_routes_to_param method x :
  Experiment.split x = [x] ->
  getRoute (state_of (addRoute method ("/:" +:+ x) empty_router)) method "/" =
    Some (String ":" x, {[x := ""]}).
Proof.
  intros Hx. unfold addRoute, getRoute. rewrite state_of_map_state.
  assert (split_path ("/:" +:+ x) = [String ":" x]) as Hp.
  { unfold split_path, Experiment.split. simpl. by rewrite split_single_segment. }
  rewrite Hp. cbn [roots empty_router]. rewrite lookup_insert_eq, lookup_empty.
  simpl. unfold split_path. rewrite split_colon by done. reflexivity.
Qed.

Lemma insert_one_fresh pat b wb :
  Trie.wild_of b = Some wb ->
  Trie.insert pat [b] 0 Trie.root = Returned (Trie.mkNode "" "" [Trie.mkNode b b [] wb] false) tt.
Proof. intros Hb. unfold Trie.insert. simpl. by rewrite Hb. Qed.

Lemma split_path_slash_segment v :
  Experiment.split v = [v] -> split_path ("/" +:+ v) = [v].
Proof.
  intros Hv. unfold split_path, Experiment.split.
  change ("/" +:+ v)%string with (String "/" v). simpl.
  unfold Experiment.split in Hv. by rewrite Hv.
Qed.

(** C34: a later route with an empty last segment erases an earlier
    one. Register [/:x] for a method on a fresh router: every path
    [/v] of one segment is answered. Then register [/]. Its only
    segment is empty; the wild [:x] node is a candidate for it, so
    [insert] descends there without a panic and stores the empty
    pattern, which unregisters the node (trie.go:35 and 49). Afterwards
    the router answers no path at all for that method. *)
Theorem slash_route_erases_param method x :
  Experiment.split x = [x] ->
  let r1 := state_of (addRoute method ("/:" +:+ x) empty_router) in
  (forall v, Experiment.split v = [v] -> is_Some (getRoute r1 method ("/" +:+ v))) /\
  exists r2, addRoute method "/" r1 = Returned r2 tt /\
    forall path, getRoute r2 method path = None.
Proof.
  intros Hx r1.
  assert (split_path ("/:" +:+ x) = [String ":" x]) as Hp.
  { unfold split_path, Experiment.split. simpl. by rewrite split_single_segment. }
  assert (roots r1 = {[method := Trie.mkNode "" "" [Trie.mkNode (String ":" x)
            (String ":" x) [] true] false]}) as Hr1.
  { subst r1. unfold addRoute. rewrite state_of_map_state, Hp. cbn [roots empty_router].
    rewrite lookup_empty. simpl default. cbn [rt_insert trie_route_trie rt_empty].
    by rewrite (insert_one_fresh _ _ true). }
  split.
  - intros v Hv. unfold getRoute. rewrite Hr1, lookup_singleton_eq, split_path_slash_segment by done.
    cbn [rt_search trie_route_trie].
    rewrite (Trie.search_step _ _ _ v), Trie.matchChildren_all_wild by (repeat constructor).
    cbn [first_some Trie.children]. rewrite Trie.search_stop by (left; reflexivity).
    simpl. by eexists.
  - unfold addRoute at 1. rewrite Hr1, lookup_singleton_eq. simpl default.
    cbn [rt_insert trie_route_trie]. unfold Trie.insert. simpl.
    eexists. split; [reflexivity|]. intros path. unfold getRoute. simpl.
    rewrite lookup_insert_eq. cbn [rt_search trie_route_trie].
    by rewrite TrieSpec.unregistered_search_none.
Qed.

(** ** Witnesses *)

Lemma param_captures_prefix_witness :
  getRoute (state_of (addRoute "GET" ("/" +:+ "users" +:+ "/:" +:+ "id") empty_router)) "GET"
    ("/" +:+ "users" +:+ "/" +:+ "42") = Some (":id", {["id" := "users"]}).
Proof. apply (param_captures_prefix "GET" "users" "id" "42"); reflexivity. Defined.

Lemma catchall_param_captures_path_witness :
  getRoute (state_of (addRoute "GET" ("/" +:+ "static" +:+ "/*" +:+ "filepath") empty_router))
    "GET" ("/" +:+ "static" +:+ "/" +:+ "css/a.css") =
  Some ("*filepath", {["filepath" := "static/css/a.css"]}).
Proof. apply (catchall_param_captures_path "GET" "static" "filepath" "css/a.css"); reflexivity. Defined.

Lemma slash_path_routes_to_param_witness :
  getRoute (state_of (addRoute "GET" ("/:" +:+ "id") empty_router)) "GET" "/" =
    Some (":id", {["id" := ""]}).
Proof. apply (slash_path_routes_to_param "GET" "id"). reflexivity. Defined.

Lemma addRoute_panic_changes_nothing_witness :
  is_Some (getRoute (state_of (addRoute "POST" "/a//b"
    (state_of (addRoute "GET" "/p/:id" (@empty_router Trie.node))))) "POST" "/a") <->
  is_Some (getRoute (state_of (addRoute "GET" "/p/:id" (@empty_router Trie.node))) "POST" "/a").
Proof. apply (addRoute_panic_changes_nothing _ _ "POST" "/a//b"). reflexivity. Defined.

(** A router with [/p/:id] for GET, then [/q] for GET and [/a/*f] for
    POST. *)
Lemma registered_route_served_witness :
  is_Some (getRoute (register [("GET", "/q"); ("POST", "/a/*f")]
    (state_of (addRoute "GET" "/p/:id" (@empty_router Trie.node)))) "GET" "/p/:id").
Proof.
  apply (registered_route_served (@empty_router Trie.node)).
  - reflexivity.
  - vm_compute. discriminate.
  - reflexivity.
  - repeat constructor; vm_compute; discriminate.
Defined.

Lemma routes_stay_routed_witness :
  is_Some (getRoute (register [("GET", "/p/x")]
    (state_of (addRoute "GET" "/p/:id" (@empty_router Trie.node)))) "GET" "/p/7").
Proof.
  apply routes_stay_routed.
  - repeat constructor; vm_compute; discriminate.
  - vm_compute. by eexists.
Defined.

Lemma slash_route_erases_param_witness :
  let r1 := state_of (addRoute "GET" ("/:" +:+ "id") (@empty_router Trie.node)) in
  (forall v, Experiment.split v = [v] -> is_Some (getRoute r1 "GET" ("/" +:+ v))) /\
  exists r2, addRoute "GET" "/" r1 = Returned r2 tt /\
    forall path, getRoute r2 "GET" path = None.
Proof. apply (slash_route_erases_param "GET" "id"). reflexivity. Defined.

End Router.
